(** * Schema mutation, dependency ordering and SQL export of the schema editor

    A shallow embedding of the schema core of the visual schema editor:
    - the agent route with its nine atomic tools and the operation history,
    - the legacy [modifySchema] route ([app/api/chat/route.ts]),
    - the dependency ordering of the SQL export dialog ([ModalSQL]) and of
      the type export dialog ([ModalTypes]), and the DDL text of the first.

    JavaScript values are modelled as follows.  A [string] is a Rocq
    [string]; [undefined] in an optional field is [None]; an array is a
    [list]; a plain object used as a map from table identifiers is a list of
    entries kept in the order in which [Object.keys] enumerates them.
    Table identifiers are assumed not to collide with the property names
    inherited from [Object.prototype]. *)

From Stdlib Require Import List String Ascii ZArith NArith Lia Bool Arith.
From Stdlib Require Import Permutation Relations DecimalString Sorted.
Import ListNotations.

Local Open Scope string_scope.
Local Open Scope list_scope.

(** ** JavaScript primitives used by the sources *)

Module Js.

(** The one-character strings that cannot be written inside a literal. *)
Definition nl : string := String (ascii_of_nat 10) EmptyString.
Definition dquote : string := String (ascii_of_nat 34) EmptyString.
Definition dot : ascii := ascii_of_nat 46.

(** [s.split(sep)] for a one-character separator: never the empty array. *)
Fixpoint split (sep : ascii) (s : string) : list string :=
  match s with
  | EmptyString => [EmptyString]
  | String c r =>
      if Ascii.eqb c sep then EmptyString :: split sep r
      else match split sep r with
           | h :: t => String c h :: t
           | [] => [String c EmptyString]
           end
  end.

(** [parts.join(sep)]. *)
Fixpoint join (sep : string) (parts : list string) : string :=
  match parts with
  | [] => EmptyString
  | [p] => p
  | p :: r => p ++ sep ++ join sep r
  end.

(** [s.includes(sub)]. *)
Fixpoint includes (s sub : string) : bool :=
  if String.prefix sub s then true
  else match s with
       | EmptyString => false
       | String _ r => includes r sub
       end.

(** [s.toLowerCase()], on the ASCII letters. *)
Definition lowerChar (c : ascii) : ascii :=
  let n := nat_of_ascii c in
  if (65 <=? n)%nat && (n <=? 90)%nat then ascii_of_nat (n + 32) else c.

Fixpoint toLowerCase (s : string) : string :=
  match s with
  | EmptyString => EmptyString
  | String c r => String (lowerChar c) (toLowerCase r)
  end.

(** Truthiness of a [string | undefined]: defined and not empty. *)
Definition truthy (s : option string) : bool :=
  match s with
  | Some (String _ _) => true
  | _ => false
  end.

(** [a || b] on optional strings, [a || b] with a string [b], and [a ?? b]. *)
Definition orElse (a b : option string) : option string :=
  if truthy a then a else b.

Definition orDefault (a : option string) (b : string) : string :=
  match orElse a None with
  | Some s => s
  | None => b
  end.

Definition coalesce {A : Type} (a : option A) (b : A) : A :=
  match a with
  | Some v => v
  | None => b
  end.

(** [arr.includes(v)] on an array of strings. *)
Definition arrayIncludes (arr : list string) (v : string) : bool :=
  existsb (String.eqb v) arr.

(** [arr.splice(i, 1)]. *)
Fixpoint splice1 {A : Type} (i : nat) (arr : list A) : list A :=
  match arr, i with
  | [], _ => []
  | _ :: r, O => r
  | a :: r, S j => a :: splice1 j r
  end.

(** [arr.findIndex(p)], [None] standing for [-1]. *)
Fixpoint findIndex {A : Type} (p : A -> bool) (arr : list A) : option nat :=
  match arr with
  | [] => None
  | a :: r => if p a then Some O else option_map S (findIndex p r)
  end.

(** [arr[i] = v] for an index inside the array. *)
Fixpoint setAt {A : Type} (i : nat) (v : A) (arr : list A) : list A :=
  match arr, i with
  | [], _ => []
  | _ :: r, O => v :: r
  | a :: r, S j => a :: setAt j v r
  end.

(** [String(n)] for a natural number and for an integer. *)
Definition ofNat (n : nat) : string := NilZero.string_of_uint (Nat.to_uint n).
Definition ofZ (z : Z) : string := NilZero.string_of_int (Z.to_int z).

(** *** Plain objects as maps

    [Object.keys] lists the keys that are array indices (canonical decimal
    strings below [2^32 - 1]) in ascending order first, then the other
    keys in the order of their creation. *)

Definition digit (c : ascii) : option N :=
  let n := N_of_ascii c in
  if (48 <=? n)%N && (n <=? 57)%N then Some (n - 48)%N else None.

Fixpoint digitsValue (acc : N) (s : string) : option N :=
  match s with
  | EmptyString => Some acc
  | String c r =>
      match digit c with
      | Some d => digitsValue (10 * acc + d)%N r
      | None => None
      end
  end.

Definition arrayIndex (key : string) : option N :=
  match key with
  | EmptyString => None
  | String c r =>
      if Ascii.eqb c "0" && negb (String.eqb r EmptyString) then None
      else match digitsValue 0%N key with
           | Some v => if (v <? 4294967295)%N then Some v else None
           | None => None
           end
  end.

Definition obj (V : Type) : Type := list (string * V).

Section Obj.
Context {V : Type}.

(** [o[key]] *)
Fixpoint get (key : string) (o : obj V) : option V :=
  match o with
  | [] => None
  | (k, v) :: r => if String.eqb k key then Some v else get key r
  end.

Definition keys (o : obj V) : list string := map fst o.

(** [delete o[key]] *)
Fixpoint delete (key : string) (o : obj V) : obj V :=
  match o with
  | [] => []
  | (k, v) :: r =>
      if String.eqb k key then delete key r else (k, v) :: delete key r
  end.

Fixpoint replace (key : string) (v : V) (o : obj V) : obj V :=
  match o with
  | [] => []
  | (k, w) :: r =>
      if String.eqb k key then (k, v) :: r else (k, w) :: replace key v r
  end.

Fixpoint insertIndex (n : N) (key : string) (v : V) (o : obj V) : obj V :=
  match o with
  | [] => [(key, v)]
  | (k, w) :: r =>
      match arrayIndex k with
      | Some m =>
          if (m <? n)%N then (k, w) :: insertIndex n key v r
          else (key, v) :: o
      | None => (key, v) :: o
      end
  end.

(** [o[key] = v]: an existing key keeps its place, a new one is created. *)
Definition set (key : string) (v : V) (o : obj V) : obj V :=
  match get key o with
  | Some _ => replace key v o
  | None =>
      match arrayIndex key with
      | Some n => insertIndex n key v o
      | None => o ++ [(key, v)]
      end
  end.
End Obj.

End Js.

(** ** Data model ([lib/types]) *)

(** The value of [Column.default] ([unknown] in the type): a JSON scalar. *)
Inductive JsValue : Type :=
| JsNull
| JsBool (b : bool)
| JsNumber (z : Z)
| JsString (s : string).

Module Position.
Record t : Type := mk { x : Z; y : Z }.
End Position.

Module Column.
Record t : Type := mk {
  title : string;
  type : string;
  format : string;
  default : option JsValue;
  required : bool;
  pk : bool;
  fk : option string;
  enumValues : option (list string);
  enumTypeName : option string;
  comment : option string
}.
End Column.

Module Table.
Record t : Type := mk {
  title : string;
  schema : option string;
  is_view : bool;
  columns : list Column.t;
  position : Position.t
}.
End Table.

Definition TableState : Type := Js.obj Table.t.

(** [columnInputSchema]: only [title] is mandatory. *)
Module ColumnInput.
Record t : Type := mk {
  title : string;
  type : option string;
  format : option string;
  default : option JsValue;
  required : option bool;
  pk : option bool;
  fk : option string;
  enumValues : option (list string);
  enumTypeName : option string;
  comment : option string
}.
End ColumnInput.

(** The [patch] of [alterColumn]: every field optional. *)
Module ColumnPatch.
Record t : Type := mk {
  title : option string;
  type : option string;
  format : option string;
  default : option JsValue;
  required : option bool;
  pk : option bool;
  fk : option string;
  enumValues : option (list string);
  enumTypeName : option string;
  comment : option string
}.
End ColumnPatch.

(** [{...originalColumn, ...patch}] over the entries of [patch] that are not
    [undefined]. *)
Definition spreadPatch (original : Column.t) (patch : ColumnPatch.t)
  : Column.t :=
  Column.mk
    (Js.coalesce (ColumnPatch.title patch) (Column.title original))
    (Js.coalesce (ColumnPatch.type patch) (Column.type original))
    (Js.coalesce (ColumnPatch.format patch) (Column.format original))
    (match ColumnPatch.default patch with
     | Some v => Some v
     | None => Column.default original
     end)
    (Js.coalesce (ColumnPatch.required patch) (Column.required original))
    (Js.coalesce (ColumnPatch.pk patch) (Column.pk original))
    (match ColumnPatch.fk patch with
     | Some v => Some v
     | None => Column.fk original
     end)
    (match ColumnPatch.enumValues patch with
     | Some v => Some v
     | None => Column.enumValues original
     end)
    (match ColumnPatch.enumTypeName patch with
     | Some v => Some v
     | None => Column.enumTypeName original
     end)
    (match ColumnPatch.comment patch with
     | Some v => Some v
     | None => Column.comment original
     end).

Definition withTypeFormat (c : Column.t) (type format : string) : Column.t :=
  Column.mk (Column.title c) type format (Column.default c)
    (Column.required c) (Column.pk c) (Column.fk c) (Column.enumValues c)
    (Column.enumTypeName c) (Column.comment c).

(** [structuredClone] of a table: a value has no identity, so the copy is
    rebuilt field by field. *)
Definition cloneColumn (c : Column.t) : Column.t :=
  Column.mk (Column.title c) (Column.type c) (Column.format c)
    (Column.default c) (Column.required c) (Column.pk c) (Column.fk c)
    (option_map (map (fun s : string => s)) (Column.enumValues c))
    (Column.enumTypeName c) (Column.comment c).

Definition structuredClone (table : Table.t) : Table.t :=
  Table.mk (Table.title table) (Table.schema table) (Table.is_view table)
    (map cloneColumn (Table.columns table))
    (Position.mk (Position.x (Table.position table))
                 (Position.y (Table.position table))).

Definition cloneTable (table : option Table.t) : option Table.t :=
  match table with
  | None => None
  | Some t => Some (structuredClone t)
  end.

Definition cloneTables (tables : option TableState) : TableState :=
  match tables with
  | None => []
  | Some ts => map (fun kv => (fst kv, structuredClone (snd kv))) ts
  end.

(** [parseTableIdentifier], the same function in both routes. *)
Module Identifier.
Record t : Type := mk { schema : option string; name : string }.
End Identifier.

Definition parseTableIdentifier (tableId : string) : Identifier.t :=
  let parts := Js.split Js.dot tableId in
  if (1 <? List.length parts)%nat then
    Identifier.mk (Some (Js.join "." (removelast parts)))
                  (last parts EmptyString)
  else Identifier.mk None tableId.

(** ** The agent route: atomic tools over a private working copy *)

Module Agent.

(** [normaliseColumn] of the agent route. *)
Definition normaliseColumn (col : ColumnInput.t) : Column.t :=
  let type :=
    Js.coalesce (ColumnInput.format col)
      (Js.coalesce (ColumnInput.type col) "text") in
  let format :=
    Js.coalesce (ColumnInput.type col)
      (Js.coalesce (ColumnInput.format col) type) in
  Column.mk (ColumnInput.title col) type format
    (ColumnInput.default col)
    (Js.coalesce (ColumnInput.required col) false)
    (Js.coalesce (ColumnInput.pk col) false)
    (ColumnInput.fk col)
    (ColumnInput.enumValues col)
    (ColumnInput.enumTypeName col)
    (ColumnInput.comment col).

Inductive OperationType : Type :=
| OpCreateTable
| OpDropTable
| OpRenameTable
| OpAddColumn
| OpDropColumn
| OpAlterColumn.

Record OperationRecord : Type := mkRecord {
  id : string;
  type : OperationType;
  tableId : string;
  before : option Table.t;
  after : option Table.t;
  timestamp : Z;
  description : string
}.

(** What one tool invocation reads from the clock and from [Math.random]. *)
Record Entropy : Type := mkEntropy {
  idNow : Z;
  idRandom : string;
  now : Z
}.

Definition generateOperationId (e : Entropy) : string :=
  "op_" ++ Js.ofZ (idNow e) ++ "_" ++ idRandom e.

(** The variables of one request that the tools close over. *)
Record State : Type := mkState {
  schemaState : TableState;
  operationCount : nat;
  totalOperations : nat;
  operationHistory : list OperationRecord;
  aborted : bool
}.

Definition withSchema (st : State) (s : TableState) : State :=
  mkState s (operationCount st) (totalOperations st)
          (operationHistory st) (aborted st).

(** [operationCount++] *)
Definition countOperation (st : State) : State :=
  mkState (schemaState st) (S (operationCount st)) (totalOperations st)
          (operationHistory st) (aborted st).

Definition recordOperation (e : Entropy) (type : OperationType)
    (tableId : string) (before after : option Table.t)
    (description : string) (st : State) : State :=
  let record :=
    mkRecord (generateOperationId e) type tableId
             (cloneTable before) (cloneTable after) (now e) description in
  mkState (schemaState st) (operationCount st) (totalOperations st)
          (operationHistory st ++ [record]) (aborted st).

Record TableSummary : Type := mkSummary {
  summaryId : string;
  summarySchema : string;
  summaryTitle : string;
  summaryIsView : bool;
  columnCount : nat;
  summaryColumns : option (list Column.t)
}.

(** The objects the tools return. *)
Inductive ToolResult : Type :=
| Failure (message : string)
| Schemas (schemas : list string) (total : nat)
| Tables (total : nat) (tables : list TableSummary)
| Details (table : Table.t)
| Created (message id : string) (columnCount : nat) (columns : list string)
| Dropped (message : string) (remainingTables : nat)
| Renamed (message : string)
| ColumnAdded (message column : string) (tableColumnCount : nat)
| ColumnDropped (message : string) (tableColumnCount : nat)
| ColumnAltered (message : string) (changes : list string).

(** The [ok] field of a result, when it has one. *)
Definition ok (r : ToolResult) : option bool :=
  match r with
  | Failure _ => Some false
  | Schemas _ _ | Tables _ _ => None
  | _ => Some true
  end.

Definition cancelled : ToolResult := Failure "Operation cancelled".

Definition notFound (tableId : string) : ToolResult :=
  Failure ("Table '" ++ tableId ++ "' not found").

(** *** Read-only tools *)

Definition setAdd (s : string) (set : list string) : list string :=
  if Js.arrayIncludes set s then set else set ++ [s].

Definition listSchemas (includeSystem : option bool) (st : State)
  : ToolResult * State :=
  if aborted st then (cancelled, st)
  else
    let includeSystem := Js.coalesce includeSystem false in
    let schemas :=
      fold_left
        (fun schemas (entry : string * Table.t) =>
           let (key, table) := entry in
           let schema :=
             Js.orDefault (Table.schema table)
               (Js.orDefault (Some (hd EmptyString (Js.split Js.dot key)))
                             "public") in
           setAdd schema schemas)
        (schemaState st) [] in
    let schemas := setAdd "public" schemas in
    (Schemas
       (filter
          (fun s =>
             includeSystem
             || negb (Js.arrayIncludes ["pg_catalog"; "information_schema"] s))
          schemas)
       (List.length schemas),
     st).

Definition listTables (schema search : option string)
    (includeColumns : option bool) (limit offset : option nat) (st : State)
  : ToolResult * State :=
  if aborted st then (cancelled, st)
  else
    let includeColumns := Js.coalesce includeColumns false in
    let limit := Js.coalesce limit 100 in
    let offset := Js.coalesce offset 0 in
    let entries := schemaState st in
    let filtered :=
      filter
        (fun entry : string * Table.t =>
           let (key, table) := entry in
           let tableSchema :=
             Js.orDefault (Table.schema table)
               (if Js.includes key "."
                then hd EmptyString (Js.split Js.dot key)
                else "public") in
           if Js.truthy schema
              && negb (String.eqb tableSchema (Js.coalesce schema EmptyString))
           then false
           else if Js.truthy search
                   && negb (Js.includes
                              (Js.toLowerCase
                                 (tableSchema ++ "." ++ Table.title table))
                              (Js.toLowerCase
                                 (Js.coalesce search EmptyString)))
           then false
           else true)
        entries in
    let sliced := firstn limit (skipn offset filtered) in
    let total := List.length filtered in
    let result :=
      Tables total
        (map
           (fun entry : string * Table.t =>
              let (key, table) := entry in
              mkSummary key
                (Js.orDefault (Table.schema table) "public")
                (Table.title table)
                (Table.is_view table)
                (List.length (Table.columns table))
                (if includeColumns then Some (Table.columns table) else None))
           sliced) in
    (result,
     if (0 <? total)%nat
     then mkState (schemaState st) (operationCount st)
                  (Nat.max (totalOperations st) total)
                  (operationHistory st) (aborted st)
     else st).

Definition getTableDetails (tableId : string) (st : State)
  : ToolResult * State :=
  if aborted st then (cancelled, st)
  else
    match Js.get tableId (schemaState st) with
    | None => (notFound tableId, st)
    | Some table => (Details table, st)
    end.

(** *** The six mutations *)

Definition createTable (e : Entropy) (tableId : string)
    (columns : list ColumnInput.t) (isView : option bool) (st : State)
  : ToolResult * State :=
  if aborted st then (cancelled, st)
  else
    let isView := Js.coalesce isView false in
    let st := countOperation st in
    let schema := Identifier.schema (parseTableIdentifier tableId) in
    let normalizedColumns := map normaliseColumn columns in
    let existing := Js.get tableId (schemaState st) in
    let beforeState := cloneTable existing in
    let count := Z.of_nat (List.length (Js.keys (schemaState st))) in
    let table :=
      Table.mk (Identifier.name (parseTableIdentifier tableId))
        (Some (Js.orDefault schema "public"))
        isView
        normalizedColumns
        (match existing with
         | Some t => Table.position t
         | None => Position.mk (100 + count * 50) (100 + count * 50)
         end) in
    let kind := if isView then "view" else "table" in
    let st := withSchema st (Js.set tableId table (schemaState st)) in
    let st :=
      recordOperation e OpCreateTable tableId beforeState (Some table)
        ("Created " ++ kind ++ " '" ++ tableId ++ "' with "
         ++ Js.ofNat (List.length normalizedColumns) ++ " columns") st in
    (Created ("Created " ++ kind ++ " '" ++ tableId ++ "'")
       tableId (List.length normalizedColumns)
       (map Column.title normalizedColumns),
     st).

Definition dropTable (e : Entropy) (tableId : string) (st : State)
  : ToolResult * State :=
  if aborted st then (cancelled, st)
  else
    match Js.get tableId (schemaState st) with
    | None => (notFound tableId, st)
    | Some table =>
        let st := countOperation st in
        let beforeState := cloneTable (Some table) in
        let st := withSchema st (Js.delete tableId (schemaState st)) in
        let st :=
          recordOperation e OpDropTable tableId beforeState None
            ("Dropped table '" ++ tableId ++ "'") st in
        (Dropped ("Dropped table '" ++ tableId ++ "'")
           (List.length (Js.keys (schemaState st))),
         st)
    end.

Definition renameTable (e : Entropy) (fromTableId toTableId : string)
    (st : State) : ToolResult * State :=
  if aborted st then (cancelled, st)
  else
    match Js.get fromTableId (schemaState st) with
    | None => (notFound fromTableId, st)
    | Some source =>
        let st := countOperation st in
        let beforeState := cloneTable (Some source) in
        let schema := Identifier.schema (parseTableIdentifier toTableId) in
        let updated :=
          Table.mk (Identifier.name (parseTableIdentifier toTableId))
            (Some (Js.orDefault schema
                     (Js.orDefault (Table.schema source) "public")))
            (Table.is_view source)
            (Table.columns source)
            (Table.position source) in
        let st := withSchema st (Js.delete fromTableId (schemaState st)) in
        let st := withSchema st (Js.set toTableId updated (schemaState st)) in
        let st :=
          recordOperation e OpRenameTable toTableId beforeState (Some updated)
            ("Renamed table '" ++ fromTableId ++ "' to '" ++ toTableId ++ "'")
            st in
        (Renamed ("Renamed '" ++ fromTableId ++ "' to '" ++ toTableId ++ "'"),
         st)
    end.

(** [table.columns = columns] on the live table stored under [tableId]. *)
Definition assignColumns (tableId : string) (table : Table.t)
    (columns : list Column.t) (st : State) : Table.t * State :=
  let table :=
    Table.mk (Table.title table) (Table.schema table) (Table.is_view table)
             columns (Table.position table) in
  (table, withSchema st (Js.replace tableId table (schemaState st))).

Definition addColumn (e : Entropy) (tableId : string)
    (column : ColumnInput.t) (st : State) : ToolResult * State :=
  if aborted st then (cancelled, st)
  else
    match Js.get tableId (schemaState st) with
    | None => (notFound tableId, st)
    | Some table =>
        let st := countOperation st in
        let beforeState := cloneTable (Some table) in
        let normalizedColumn := normaliseColumn column in
        let existingColumns := Table.columns table in
        if existsb
             (fun c => String.eqb (Column.title c)
                                  (Column.title normalizedColumn))
             existingColumns
        then
          (Failure ("Column '" ++ Column.title normalizedColumn
                    ++ "' already exists in '" ++ tableId ++ "'"),
           st)
        else
          let (table, st) :=
            assignColumns tableId table
              (existingColumns ++ [normalizedColumn]) st in
          let st :=
            recordOperation e OpAddColumn tableId beforeState (Some table)
              ("Added column '" ++ Column.title normalizedColumn
               ++ "' to '" ++ tableId ++ "'") st in
          (ColumnAdded
             ("Added column '" ++ Column.title normalizedColumn
              ++ "' to '" ++ tableId ++ "'")
             (Column.title normalizedColumn)
             (List.length (Table.columns table)),
           st)
    end.

Definition dropColumn (e : Entropy) (tableId columnName : string)
    (st : State) : ToolResult * State :=
  if aborted st then (cancelled, st)
  else
    match Js.get tableId (schemaState st) with
    | None => (notFound tableId, st)
    | Some table =>
        let st := countOperation st in
        let beforeState := cloneTable (Some table) in
        let originalLength := List.length (Table.columns table) in
        let (table, st) :=
          assignColumns tableId table
            (filter (fun c => negb (String.eqb (Column.title c) columnName))
                    (Table.columns table))
            st in
        if (List.length (Table.columns table) =? originalLength)%nat
        then
          (Failure ("Column '" ++ columnName ++ "' not found in '"
                    ++ tableId ++ "'"),
           st)
        else
          let st :=
            recordOperation e OpDropColumn tableId beforeState (Some table)
              ("Dropped column '" ++ columnName ++ "' from '"
               ++ tableId ++ "'") st in
          (ColumnDropped
             ("Dropped column '" ++ columnName ++ "' from '" ++ tableId ++ "'")
             (List.length (Table.columns table)),
           st)
    end.

Definition defined {A : Type} (name : string) (v : option A) : list string :=
  match v with
  | Some _ => [name]
  | None => []
  end.

(** The keys of [patch] whose value is not [undefined]. *)
Definition changedProps (patch : ColumnPatch.t) : list string :=
  defined "title" (ColumnPatch.title patch)
  ++ defined "type" (ColumnPatch.type patch)
  ++ defined "format" (ColumnPatch.format patch)
  ++ defined "default" (ColumnPatch.default patch)
  ++ defined "required" (ColumnPatch.required patch)
  ++ defined "pk" (ColumnPatch.pk patch)
  ++ defined "fk" (ColumnPatch.fk patch)
  ++ defined "enumValues" (ColumnPatch.enumValues patch)
  ++ defined "enumTypeName" (ColumnPatch.enumTypeName patch)
  ++ defined "comment" (ColumnPatch.comment patch).

Definition alterColumn (e : Entropy) (tableId columnName : string)
    (patch : ColumnPatch.t) (st : State) : ToolResult * State :=
  if aborted st then (cancelled, st)
  else
    match Js.get tableId (schemaState st) with
    | None => (notFound tableId, st)
    | Some table =>
        let st := countOperation st in
        let beforeState := cloneTable (Some table) in
        let columnIndex :=
          Js.findIndex (fun c => String.eqb (Column.title c) columnName)
                       (Table.columns table) in
        match
          columnIndex,
          nth_error (Table.columns table) (Js.coalesce columnIndex 0)
        with
        | Some columnIndex, Some originalColumn =>
            let updatedColumn := spreadPatch originalColumn patch in
            let updatedColumn :=
              if Js.truthy (ColumnPatch.type patch)
                 || Js.truthy (ColumnPatch.format patch)
              then
                withTypeFormat updatedColumn
                  (Js.coalesce (ColumnPatch.format patch)
                     (Js.coalesce (ColumnPatch.type patch)
                        (Column.type originalColumn)))
                  (Js.coalesce (ColumnPatch.type patch)
                     (Js.coalesce (ColumnPatch.format patch)
                        (Column.format originalColumn)))
              else updatedColumn in
            let (table, st) :=
              assignColumns tableId table
                (Js.setAt columnIndex updatedColumn (Table.columns table))
                st in
            let st :=
              recordOperation e OpAlterColumn tableId beforeState (Some table)
                ("Altered column '" ++ columnName ++ "' in '"
                 ++ tableId ++ "'") st in
            (ColumnAltered
               ("Updated column '" ++ columnName ++ "' in '" ++ tableId ++ "'")
               (changedProps patch),
             st)
        | _, _ =>
            (Failure ("Column '" ++ columnName ++ "' not found in '"
                      ++ tableId ++ "'"),
             st)
        end
    end.

(** *** One request: tool invocations and the abort signal *)

Inductive ToolCall : Type :=
| ListSchemas (includeSystem : option bool)
| ListTables (schema search : option string) (includeColumns : option bool)
             (limit offset : option nat)
| GetTableDetails (tableId : string)
| CreateTable (tableId : string) (columns : list ColumnInput.t)
              (isView : option bool)
| DropTable (tableId : string)
| RenameTable (fromTableId toTableId : string)
| AddColumn (tableId : string) (column : ColumnInput.t)
| DropColumn (tableId columnName : string)
| AlterColumn (tableId columnName : string) (patch : ColumnPatch.t).

Definition execute (e : Entropy) (call : ToolCall) (st : State)
  : ToolResult * State :=
  match call with
  | ListSchemas includeSystem => listSchemas includeSystem st
  | ListTables schema search includeColumns limit offset =>
      listTables schema search includeColumns limit offset st
  | GetTableDetails tableId => getTableDetails tableId st
  | CreateTable tableId columns isView =>
      createTable e tableId columns isView st
  | DropTable tableId => dropTable e tableId st
  | RenameTable fromTableId toTableId =>
      renameTable e fromTableId toTableId st
  | AddColumn tableId column => addColumn e tableId column st
  | DropColumn tableId columnName => dropColumn e tableId columnName st
  | AlterColumn tableId columnName patch =>
      alterColumn e tableId columnName patch st
  end.

(** What happens during a request: the model invokes a tool, or the client
    aborts ([abortController.abort()]). *)
Inductive Event : Type :=
| Invoke (e : Entropy) (call : ToolCall)
| Abort.

Definition abort (st : State) : State :=
  mkState (schemaState st) (operationCount st) (totalOperations st)
          (operationHistory st) true.

Definition step (st : State) (ev : Event) : list ToolResult * State :=
  match ev with
  | Invoke e call => let (r, st') := execute e call st in ([r], st')
  | Abort => ([], abort st)
  end.

(** The results and the final state of a sequence of events. *)
Fixpoint run (events : list Event) (st : State) : list ToolResult * State :=
  match events with
  | [] => ([], st)
  | ev :: rest =>
      let (rs, st1) := step st ev in
      let (rs', st2) := run rest st1 in
      (rs ++ rs', st2)
  end.

(** The state at the start of a request: [cloneTables(body.schema)]. *)
Definition start (schema : option TableState) : State :=
  mkState (cloneTables schema) 0 0 [] false.

End Agent.

(** ** The legacy route: [modifySchema] over a list of operations *)

Module Legacy.

(** [normaliseColumn] of the legacy route. *)
Definition normaliseColumn (input : ColumnInput.t) : Column.t :=
  let type :=
    Js.coalesce (ColumnInput.type input)
      (Js.coalesce (ColumnInput.format input) "string") in
  let format := Js.coalesce (ColumnInput.format input) type in
  Column.mk (ColumnInput.title input) type format
    (ColumnInput.default input)
    (Js.coalesce (ColumnInput.required input) false)
    (Js.coalesce (ColumnInput.pk input) false)
    (ColumnInput.fk input)
    (ColumnInput.enumValues input)
    (ColumnInput.enumTypeName input)
    (ColumnInput.comment input).

Inductive Operation : Type :=
| create_table (tableId : string) (columns : list ColumnInput.t)
               (isView : option bool)
| drop_table (tableId : string)
| rename_table (fromTableId toTableId : string)
| add_column (tableId : string) (column : ColumnInput.t)
| drop_column (tableId columnName : string)
| alter_column (tableId columnName : string) (patch : ColumnPatch.t).

Inductive Status : Type := success | error.

Record Applied : Type := mkApplied {
  action : string;
  tableId : string;
  detail : string;
  status : Status
}.

(** The variables [schemaState], [ok] and [operationsApplied]. *)
Record State : Type := mkState {
  schemaState : TableState;
  ok : bool;
  operationsApplied : list Applied
}.

Definition pushApplied (st : State) (s : TableState) (a : Applied) : State :=
  mkState s (ok st) (operationsApplied st ++ [a]).

Definition pushError (st : State) (a : Applied) : State :=
  mkState (schemaState st) false (operationsApplied st ++ [a]).

Definition withColumns (table : Table.t) (columns : list Column.t) : Table.t :=
  Table.mk (Table.title table) (Table.schema table) (Table.is_view table)
           columns (Table.position table).

(** One turn of the loop over [input.operations]. *)
Definition applyOperation (st : State) (operation : Operation) : State :=
  match operation with
  | create_table tableId columns isView =>
      let schema := Identifier.schema (parseTableIdentifier tableId) in
      let columns := map normaliseColumn columns in
      let existing := Js.get tableId (schemaState st) in
      let table :=
        Table.mk tableId schema (Js.coalesce isView false) columns
          (match existing with
           | Some t => Table.position t
           | None => Position.mk 0 0
           end) in
      pushApplied st (Js.set tableId table (schemaState st))
        (mkApplied "create_table" tableId
           ("Created " ++ tableId ++ " with "
            ++ Js.ofNat (List.length columns) ++ " column"
            ++ (if (List.length columns =? 1)%nat then EmptyString else "s")
            ++ ".")
           success)
  | drop_table tableId =>
      match Js.get tableId (schemaState st) with
      | Some _ =>
          pushApplied st (Js.delete tableId (schemaState st))
            (mkApplied "drop_table" tableId
               ("Removed " ++ tableId ++ ".") success)
      | None =>
          pushError st
            (mkApplied "drop_table" tableId
               ("Table " ++ tableId ++ " not found.") error)
      end
  | rename_table fromTableId toTableId =>
      match Js.get fromTableId (schemaState st) with
      | None =>
          pushError st
            (mkApplied "rename_table" fromTableId
               ("Table " ++ fromTableId ++ " not found.") error)
      | Some source =>
          let schema := Identifier.schema (parseTableIdentifier toTableId) in
          let updated :=
            Table.mk toTableId schema (Table.is_view source)
                     (Table.columns source) (Table.position source) in
          pushApplied st
            (Js.set toTableId updated (Js.delete fromTableId (schemaState st)))
            (mkApplied "rename_table" toTableId
               ("Renamed " ++ fromTableId ++ " to " ++ toTableId ++ ".")
               success)
      end
  | add_column tableId column =>
      match Js.get tableId (schemaState st) with
      | None =>
          pushError st
            (mkApplied "add_column" tableId
               ("Table " ++ tableId ++ " not found.") error)
      | Some table =>
          let column := normaliseColumn column in
          let existingColumns := Table.columns table in
          pushApplied st
            (Js.replace tableId
               (withColumns table (existingColumns ++ [column]))
               (schemaState st))
            (mkApplied "add_column" tableId
               ("Added column " ++ Column.title column ++ ".") success)
      end
  | drop_column tableId columnName =>
      match Js.get tableId (schemaState st) with
      | None =>
          pushError st
            (mkApplied "drop_column" tableId
               ("Column " ++ columnName ++ " not found.") error)
      | Some table =>
          let nextColumns :=
            filter (fun column =>
                      negb (String.eqb (Column.title column) columnName))
                   (Table.columns table) in
          if (List.length nextColumns =? List.length (Table.columns table))%nat
          then
            pushError st
              (mkApplied "drop_column" tableId
                 ("Column " ++ columnName ++ " not found.") error)
          else
            pushApplied st
              (Js.replace tableId (withColumns table nextColumns)
                          (schemaState st))
              (mkApplied "drop_column" tableId
                 ("Removed column " ++ columnName ++ ".") success)
      end
  | alter_column tableId columnName patch =>
      match Js.get tableId (schemaState st) with
      | None =>
          pushError st
            (mkApplied "alter_column" tableId
               ("Table " ++ tableId ++ " not found.") error)
      | Some table =>
          let columnIndex :=
            Js.findIndex
              (fun column => String.eqb (Column.title column) columnName)
              (Table.columns table) in
          match
            columnIndex,
            nth_error (Table.columns table) (Js.coalesce columnIndex 0)
          with
          | Some columnIndex, Some originalColumn =>
              let updatedColumn := spreadPatch originalColumn patch in
              let updatedColumn :=
                if Js.truthy (ColumnPatch.format patch)
                   && negb (Js.truthy (ColumnPatch.type patch))
                then withTypeFormat updatedColumn
                       (Js.coalesce (ColumnPatch.format patch) EmptyString)
                       (Column.format updatedColumn)
                else updatedColumn in
              let updatedColumn :=
                if Js.truthy (ColumnPatch.type patch)
                   && negb (Js.truthy (ColumnPatch.format patch))
                then withTypeFormat updatedColumn
                       (Column.type updatedColumn)
                       (Js.coalesce (ColumnPatch.type patch) EmptyString)
                else updatedColumn in
              pushApplied st
                (Js.replace tableId
                   (withColumns table
                      (Js.setAt columnIndex updatedColumn
                                (Table.columns table)))
                   (schemaState st))
                (mkApplied "alter_column" tableId
                   ("Updated column " ++ columnName ++ ".") success)
          | _, _ =>
              pushError st
                (mkApplied "alter_column" tableId
                   ("Column " ++ columnName ++ " not found.") error)
          end
      end
  end.

Record Output : Type := mkOutput {
  outOk : bool;
  outTables : TableState;
  outApplied : list Applied
}.

(** [applySchemaOperations], together with the [schemaState] it leaves. *)
Definition applySchemaOperations (schemaState0 : TableState)
    (operations : list Operation) : Output * TableState :=
  let st := fold_left applyOperation operations (mkState schemaState0 true []) in
  (mkOutput (ok st) (cloneTables (Some (schemaState st)))
            (operationsApplied st),
   schemaState st).

End Legacy.

(** ** Dependency ordering

    [ModalSQL] and [ModalTypes] both start their export with the same
    statements: the [dependencies] object, then the [while] loop around a
    [for ... in] over [keys] that moves the ready keys to [output]. *)

Definition definedStrings (l : list (option string)) : list string :=
  flat_map (fun v => match v with Some s => [s] | None => [] end) l.

(** [value.columns.map(v => v.fk?.split('.')[0])
      .filter(v => typeof v === 'string').filter(v => table != v)] *)
Definition dependenciesOf (table : string) (value : Table.t) : list string :=
  filter (fun v => negb (String.eqb table v))
    (definedStrings
       (map (fun v =>
               option_map (fun fk => hd EmptyString (Js.split Js.dot fk))
                          (Column.fk v))
            (Table.columns value))).

Definition dependencies (tables : TableState) : Js.obj (list string) :=
  fold_left
    (fun deps (entry : string * Table.t) =>
       Js.set (fst entry) (dependenciesOf (fst entry) (snd entry)) deps)
    tables [].

(** The body of the [for (let i in keys)] loop at the index [i].  The
    indices are those [keys] had when the loop started; an index that is no
    longer in the array, after the [splice] calls, is skipped. *)
Definition forInBody (deps : Js.obj (list string))
    (state : list string * list string) (i : nat)
  : list string * list string :=
  let (keys, output) := state in
  match nth_error keys i with
  | None => state
  | Some key =>
      match Js.get key deps with
      | Some d =>
          if forallb (fun dependency => Js.arrayIncludes output dependency) d
          then (Js.splice1 i keys, output ++ [key])
          else state
      | None => state (* not reached: every key is a key of [deps] *)
      end
  end.

Definition forIn (deps : Js.obj (list string)) (keys output : list string)
  : list string * list string :=
  fold_left (forInBody deps) (seq 0 (List.length keys)) (keys, output).

(** [while (keys.length) { for ... }]; [None] when [fuel] turns of the
    [while] loop do not empty [keys]. *)
Fixpoint whileKeys (fuel : nat) (deps : Js.obj (list string))
    (keys output : list string) : option (list string) :=
  match keys with
  | [] => Some output
  | _ :: _ =>
      match fuel with
      | O => None
      | S fuel' =>
          let (keys', output') := forIn deps keys output in
          whileKeys fuel' deps keys' output'
      end
  end.

Definition dependencyOrder (fuel : nat) (tables : TableState)
  : option (list string) :=
  let deps := dependencies tables in
  whileKeys fuel deps (Js.keys deps) [].

(** ** The SQL export dialog *)

Module ModalSQL.

Definition reservedKeyword : list string :=
  [ "user"; "database"; "default"; "dictionary"; "files"; "group"; "index";
    "level"; "max"; "min"; "password"; "procedure"; "table"; "user"; "view" ].

(** [`${parts[1]}`]: a missing element prints as [undefined]. *)
Definition template (v : option string) : string :=
  Js.coalesce v "undefined".

(** The callback of [value.columns.forEach((v, i, arr) => ...)]. *)
Definition columnCode (arrLength : nat) (code : string)
    (iv : nat * Column.t) : string :=
  let (i, v) := iv in
  let code : string :=
    if Js.arrayIncludes reservedKeyword (Column.title v)
    then (code ++ "  " ++ Js.dquote ++ Column.title v ++ Js.dquote)%string
    else (code ++ "  " ++ Column.title v)%string in
  let code : string :=
    if String.eqb (Column.format v) "integer" && Column.pk v
    then (code ++ " serial")%string
    else (code ++ " " ++ Column.format v)%string in
  let code : string :=
    if Js.truthy (Column.fk v)
    then
      let parts := Js.split Js.dot (Js.coalesce (Column.fk v) EmptyString) in
      (code ++ " references " ++ template (nth_error parts 0)
            ++ " (" ++ template (nth_error parts 1) ++ ")")%string
    else code in
  let code : string :=
    if String.eqb (Column.format v) "date"
       || Js.includes (Column.format v) "timestamp"
    then (code ++ " default now()")%string
    else code in
  let code : string :=
    if Column.required v && String.eqb (Column.format v) "uuid"
       && negb (Js.truthy (Column.fk v))
    then (code ++ " default uuid_generate_v4()")%string
    else if Column.required v && negb (Js.truthy (Column.fk v))
    then (code ++ " not null")%string
    else code in
  let code : string :=
    if Column.pk v then (code ++ " primary key")%string else code in
  if (i =? arrLength - 1)%nat
  then (code ++ Js.nl)%string
  else (code ++ "," ++ Js.nl)%string.

(** The callback of [output.forEach((v) => ...)]. *)
Definition tableCode (tables : TableState) (code : string) (v : string)
  : string :=
  match Js.get v tables with
  | None => code (* not reached: [output] holds keys of [tables] *)
  | Some value =>
      if Table.is_view value then code
      else
        let table := v in
        let code : string :=
          (code ++ "create table " ++ table ++ " (" ++ Js.nl)%string in
        let arr := Table.columns value in
        let code : string :=
          fold_left (columnCode (List.length arr))
                    (combine (seq 0 (List.length arr)) arr) code in
        (code ++ ");" ++ Js.nl ++ Js.nl)%string
  end.

(** [exportedCode]; [None] when the ordering does not end within [fuel]
    turns. *)
Definition exportedCode (fuel : nat) (tables : TableState) : option string :=
  match dependencyOrder fuel tables with
  | None => None
  | Some output => Some (fold_left (tableCode tables) output EmptyString)
  end.

End ModalSQL.

(** ** Notions used to state the properties *)

(** [t] has a column whose foreign key names the other table [d]. *)
Definition dependsOn (tables : TableState) (t d : string) : Prop :=
  exists value,
    Js.get t tables = Some value /\ In d (dependenciesOf t value).

(** No table reaches itself along foreign keys into other tables. *)
Definition acyclic (tables : TableState) : Prop :=
  forall t, ~ clos_trans string (dependsOn tables) t t.

(** Every foreign key into another table names a table of the state. *)
Definition fkClosed (tables : TableState) : Prop :=
  forall t d, dependsOn tables t d -> In d (Js.keys tables).

(** [arr.indexOf(v)], [None] standing for [-1]. *)
Definition indexOf (v : string) (arr : list string) : option nat :=
  Js.findIndex (String.eqb v) arr.

(** [d] and [t] both occur in [output], [d] first. *)
Definition precedes (d t : string) (output : list string) : Prop :=
  match indexOf d output, indexOf t output with
  | Some i, Some j => i < j
  | _, _ => False
  end.

(** [sub] and [sub'] both occur in [text], the first occurrence of [sub]
    before the first one of [sub']. *)
Definition occursBefore (sub sub' text : string) : Prop :=
  match String.index 0 sub text, String.index 0 sub' text with
  | Some i, Some j => i < j
  | _, _ => False
  end.

Definition columnInput (title : string) (type : option string)
    (pk required : option bool) (fk : option string) : ColumnInput.t :=
  ColumnInput.mk title type None None required pk fk None None None.

Definition entropy0 : Agent.Entropy := Agent.mkEntropy 0 "a1b2c3d" 0.

(** The scenario of the two [createTable] calls on the empty schema. *)
Definition usersPosts : TableState :=
  Agent.schemaState
    (snd (Agent.run
            [ Agent.Invoke entropy0
                (Agent.CreateTable "users"
                   [ columnInput "id" (Some "uuid") (Some true) (Some true)
                                 None;
                     columnInput "email" (Some "text") None (Some true) None ]
                   None);
              Agent.Invoke entropy0
                (Agent.CreateTable "posts"
                   [ columnInput "id" (Some "uuid") (Some true) None None;
                     columnInput "user_id" (Some "uuid") None None
                                 (Some "users.id") ]
                   None) ]
            (Agent.start None))).

(** Two tables that reference each other. *)
Definition cyclicTables : TableState :=
  Agent.schemaState
    (snd (Agent.run
            [ Agent.Invoke entropy0
                (Agent.CreateTable "a"
                   [ columnInput "id" (Some "uuid") (Some true) None None;
                     columnInput "b_id" (Some "uuid") None None
                                 (Some "b.id") ]
                   None);
              Agent.Invoke entropy0
                (Agent.CreateTable "b"
                   [ columnInput "id" (Some "uuid") (Some true) None None;
                     columnInput "a_id" (Some "uuid") None None
                                 (Some "a.id") ]
                   None) ]
            (Agent.start None))).

(** *** Undo *)

(** Modelled from the spec: the client code that consumes the operation
    history is not part of the sources.  Applying the [before] value of a
    record puts that snapshot back under the record's [tableId], and removes
    the entry when the snapshot is [null]. *)
Definition applyBefore (tables : TableState) (record : Agent.OperationRecord)
  : TableState :=
  match Agent.before record with
  | Some table => Js.set (Agent.tableId record) table tables
  | None => Js.delete (Agent.tableId record) tables
  end.

(** The [before] values applied in reverse order. *)
Definition undoAll (history : list Agent.OperationRecord)
    (tables : TableState) : TableState :=
  fold_left applyBefore (rev history) tables.

(** The tool results that carry [ok: true]. *)
Definition succeeded (r : Agent.ToolResult) : bool :=
  match Agent.ok r with
  | Some true => true
  | _ => false
  end.

(** *** The column rule of the generated DDL, clause by clause

    A second description of the text, following the wording of the design
    document, to be compared with [ModalSQL.exportedCode]. *)

Module Rule.

Definition reservedWords : list string :=
  [ "user"; "database"; "default"; "dictionary"; "files"; "group"; "index";
    "level"; "max"; "min"; "password"; "procedure"; "table"; "view" ].

Definition isReserved (title : string) : bool :=
  if in_dec string_dec title reservedWords then true else false.

(** The foreign key is set: present and not the empty string. *)
Definition fkSet (c : Column.t) : bool :=
  match Column.fk c with
  | Some fk => negb (String.eqb fk EmptyString)
  | None => false
  end.

(** The table and the column named by an FK string [table.column]; a
    string without a dot names no column, printed as [undefined]. *)
Definition fkTable (fk : string) : string :=
  nth 0 (Js.split Js.dot fk) "undefined".

Definition fkColumn (fk : string) : string :=
  nth 1 (Js.split Js.dot fk) "undefined".

Definition identifier (c : Column.t) : string :=
  if isReserved (Column.title c)
  then Js.dquote ++ Column.title c ++ Js.dquote
  else Column.title c.

Definition dataType (c : Column.t) : string :=
  if String.eqb (Column.format c) "integer" && Column.pk c
  then "serial"
  else Column.format c.

Definition referencesClause (c : Column.t) : string :=
  match Column.fk c with
  | Some fk =>
      if fkSet c
      then " references " ++ fkTable fk ++ " (" ++ fkColumn fk ++ ")"
      else EmptyString
  | None => EmptyString
  end.

Definition dateFamily (c : Column.t) : bool :=
  String.eqb (Column.format c) "date"
  || Js.includes (Column.format c) "timestamp".

Definition defaultNowClause (c : Column.t) : string :=
  if dateFamily c then " default now()" else EmptyString.

Definition requiredClause (c : Column.t) : string :=
  if Column.required c && String.eqb (Column.format c) "uuid"
     && negb (fkSet c)
  then " default uuid_generate_v4()"
  else if Column.required c && negb (fkSet c)
  then " not null"
  else EmptyString.

Definition primaryKeyClause (c : Column.t) : string :=
  if Column.pk c then " primary key" else EmptyString.

Definition lineEnd (isLast : bool) : string :=
  if isLast then Js.nl else "," ++ Js.nl.

Definition columnLine (c : Column.t) (isLast : bool) : string :=
  "  " ++ identifier c ++ " " ++ dataType c ++ referencesClause c
  ++ defaultNowClause c ++ requiredClause c ++ primaryKeyClause c
  ++ lineEnd isLast.

(** The lines of a column list: only the last one without a comma. *)
Fixpoint columnLines (columns : list Column.t) : string :=
  match columns with
  | [] => EmptyString
  | [c] => columnLine c true
  | c :: rest => columnLine c false ++ columnLines rest
  end.

Definition createTable (id : string) (table : Table.t) : string :=
  "create table " ++ id ++ " (" ++ Js.nl
  ++ columnLines (Table.columns table)
  ++ ");" ++ Js.nl ++ Js.nl.

(** The statements of the tables of [order], the views left out. *)
Fixpoint statements (tables : TableState) (order : list string) : string :=
  match order with
  | [] => EmptyString
  | id :: rest =>
      match Js.get id tables with
      | Some table =>
          if Table.is_view table then statements tables rest
          else createTable id table ++ statements tables rest
      | None => statements tables rest
      end
  end.

End Rule.

(** *** Round trip through SQL text *)

Definition EnumMap : Type := Js.obj (list string).

(** Modelled from the spec: [generateSchemaSQL] of [lib/schema-sql] is not
    part of the sources.  The design document gives it the emission rule of
    the SQL export dialog (dependency order, views skipped, the column rule
    above), which is taken here; no enum type is involved in what follows. *)
Definition generateSchemaSQL (fuel : nat) (tables : TableState)
    (enumTypes : EnumMap) : option string :=
  ModalSQL.exportedCode fuel tables.

(** A table without its canvas position. *)
Definition erasePosition (table : Table.t) : Table.t :=
  Table.mk (Table.title table) (Table.schema table) (Table.is_view table)
           (Table.columns table) (Position.mk 0 0).

(** Structural equality of two table states, [position] ignored. *)
Definition equalIgnoringPosition (a b : TableState) : Prop :=
  forall id,
    option_map erasePosition (Js.get id a)
    = option_map erasePosition (Js.get id b).

(** A table state produced from the empty one by tool invocations only. *)
Definition produced (tables : TableState) : Prop :=
  exists events,
    Agent.schemaState (snd (Agent.run events (Agent.start None))) = tables.

(** A parser [parse] gives the round trip on [tables]. *)
Definition roundTrip (parse : string -> TableState) (tables : TableState)
  : Prop :=
  exists fuel text,
    generateSchemaSQL fuel tables [] = Some text
    /\ equalIgnoringPosition (parse text) tables.

(** One table [users], and the same with a view [v] created after it. *)
Definition createUsers : Agent.Event :=
  Agent.Invoke entropy0
    (Agent.CreateTable "users"
       [ columnInput "id" (Some "uuid") (Some true) (Some true) None ]
       None).

Definition createView : Agent.Event :=
  Agent.Invoke entropy0
    (Agent.CreateTable "v"
       [ columnInput "id" (Some "uuid") (Some true) None None ]
       (Some true)).

Definition usersOnly : TableState :=
  Agent.schemaState (snd (Agent.run [createUsers] (Agent.start None))).

Definition usersAndView : TableState :=
  Agent.schemaState
    (snd (Agent.run [createUsers; createView] (Agent.start None))).

(** *** Auxiliary notions for the ordering loop *)

(** The test of the loop body: the dependencies of [key] are in [output]. *)
Definition readyIn (deps : Js.obj (list string)) (output : list string)
    (key : string) : bool :=
  match Js.get key deps with
  | Some d => forallb (fun dependency => Js.arrayIncludes output dependency) d
  | None => false
  end.

(** An output built by pushing keys whose dependencies were already in. *)
Inductive ordered (deps : Js.obj (list string)) : list string -> Prop :=
| ordered_nil : ordered deps []
| ordered_push output key d :
    ordered deps output ->
    Js.get key deps = Some d ->
    (forall x, In x d -> In x output) ->
    ordered deps (output ++ [key]).

(** The edges of a [dependencies] object. *)
Definition edge (deps : Js.obj (list string)) (k x : string) : Prop :=
  exists d, Js.get k deps = Some d /\ In x d.

(** A list in which every element is related to the next one. *)
Fixpoint chain {A : Type} (R : A -> A -> Prop) (l : list A) : Prop :=
  match l with
  | a :: (b :: _) as r => R a b /\ chain R r
  | _ => True
  end.

(** What every turn of the loops keeps: the keys are split between [keys]
    and [output], and [output] was built in dependency order. *)
Definition loopInvariant (deps : Js.obj (list string)) (all : list string)
    (state : list string * list string) : Prop :=
  Permutation (fst state ++ snd state) all /\ ordered deps (snd state).

(** The test of the two [filter] calls that drop a column. *)
Definition keepOthers (columnName : string) (c : Column.t) : bool :=
  negb (String.eqb (Column.title c) columnName).

(** The entry [renameTable] stores under the new identifier: the source
    with the title and, when the identifier has one, the schema of the new
    identifier. *)
Definition renamed (toTableId : string) (source : Table.t) : Table.t :=
  Table.mk (Identifier.name (parseTableIdentifier toTableId))
    (Some (Js.orDefault (Identifier.schema (parseTableIdentifier toTableId))
             (Js.orDefault (Table.schema source) "public")))
    (Table.is_view source) (Table.columns source) (Table.position source).

(** A request that starts on the tables [tables]. *)
Definition running (tables : TableState) : Agent.State :=
  Agent.mkState tables 0 0 [] false.

(** The six tools that change the schema. *)
Definition isMutation (call : Agent.ToolCall) : bool :=
  match call with
  | Agent.ListSchemas _ | Agent.ListTables _ _ _ _ _
  | Agent.GetTableDetails _ => false
  | _ => true
  end.

(** The number of mutations of [events] that return [ok: true]. *)
Fixpoint successfulMutations (events : list Agent.Event) (st : Agent.State)
  : nat :=
  match events with
  | [] => 0
  | Agent.Abort :: rest => successfulMutations rest (Agent.abort st)
  | Agent.Invoke e call :: rest =>
      let (r, st') := Agent.execute e call st in
      (if isMutation call && succeeded r then 1 else 0)
      + successfulMutations rest st'
  end.

(** Two tables [a] and [b], the column of [b] named [title]. *)
Definition twoTables (title : string) : TableState :=
  Agent.schemaState
    (snd (Agent.run
            [ Agent.Invoke entropy0
                (Agent.CreateTable "a"
                   [ columnInput "id" (Some "uuid") (Some true) None None ]
                   None);
              Agent.Invoke entropy0
                (Agent.CreateTable "b"
                   [ columnInput title (Some "text") None None None ]
                   None) ]
            (Agent.start None))).

(** The table state with every position erased. *)
Definition erasePositions (tables : TableState) : TableState :=
  map (fun entry : string * Table.t => (fst entry, erasePosition (snd entry)))
      tables.

(** No [renameTable] among the events. *)
Definition renameFree (events : list Agent.Event) : Prop :=
  Forall (fun ev =>
            match ev with
            | Agent.Invoke _ (Agent.RenameTable _ _) => False
            | _ => True
            end)
         events.

(** Two table states with the same entries, whatever the order of keys. *)
Definition sameEntries (a b : TableState) : Prop :=
  forall id, Js.get id a = Js.get id b.

(** The [updatedColumn] that [alterColumn] of the agent route computes from
    the column it found and the patch. *)
Definition alteredColumn (originalColumn : Column.t) (patch : ColumnPatch.t)
  : Column.t :=
  let updatedColumn := spreadPatch originalColumn patch in
  if Js.truthy (ColumnPatch.type patch) || Js.truthy (ColumnPatch.format patch)
  then
    withTypeFormat updatedColumn
      (Js.coalesce (ColumnPatch.format patch)
         (Js.coalesce (ColumnPatch.type patch) (Column.type originalColumn)))
      (Js.coalesce (ColumnPatch.type patch)
         (Js.coalesce (ColumnPatch.format patch)
            (Column.format originalColumn)))
  else updatedColumn.

(** What the SQL export reads of a column: the title, the format, [pk],
    the foreign key, and [required] when there is no foreign key. *)
Definition emittedColumn (c : Column.t) : Column.t :=
  Column.mk (Column.title c) EmptyString (Column.format c) None
    (Column.required c && negb (Js.truthy (Column.fk c)))
    (Column.pk c) (Column.fk c) None None None.

(** What the SQL export reads of a table: the view flag and the columns. *)
Definition emittedTable (table : Table.t) : Table.t :=
  Table.mk EmptyString None (Table.is_view table)
           (map emittedColumn (Table.columns table)) (Position.mk 0 0).

Definition emittedTables (tables : TableState) : TableState :=
  map (fun entry : string * Table.t => (fst entry, emittedTable (snd entry)))
      tables.

(** The [action] of an operation of the legacy route. *)
Definition actionName (operation : Legacy.Operation) : string :=
  match operation with
  | Legacy.create_table _ _ _ => "create_table"
  | Legacy.drop_table _ => "drop_table"
  | Legacy.rename_table _ _ => "rename_table"
  | Legacy.add_column _ _ => "add_column"
  | Legacy.drop_column _ _ => "drop_column"
  | Legacy.alter_column _ _ _ => "alter_column"
  end.

Definition isSuccess (a : Legacy.Applied) : bool :=
  match Legacy.status a with
  | Legacy.success => true
  | Legacy.error => false
  end.

(** ** The SQL panel of the sidebar ([SchemaSidebarSql]) *)

Module Sidebar.

(** What [parseSchemaSQL] returns. *)
Record ParseResult : Type := mkResult {
  tables : TableState;
  enumTypes : EnumMap;
  error : option string
}.

(** What [handleApply] does: it shows an error and a toast and leaves the
    store, or it calls [updateTablesFromAI] and selects a table. *)
Inductive Outcome : Type :=
| Rejected (error toast : string)
| Applied (tables : TableState) (enumTypes : EnumMap) (selectedTable : string).

Definition withPosition (table : Table.t) (position : Position.t) : Table.t :=
  Table.mk (Table.title table) (Table.schema table) (Table.is_view table)
           (Table.columns table) position.

(** [{...a, ...b}] *)
Definition spread {V : Type} (a b : Js.obj V) : Js.obj V :=
  fold_left (fun o (entry : string * V) => Js.set (fst entry) (snd entry) o)
            b
            (fold_left
               (fun o (entry : string * V) => Js.set (fst entry) (snd entry) o)
               a []).

(** [handleApply], on the result of parsing the text of the panel.  The
    position of a parsed table is defined, as its type has it. *)
Definition handleApply (selectedTable : string) (tables : TableState)
    (enumTypes : EnumMap) (result : ParseResult) : Outcome :=
  if Js.truthy (error result)
  then Rejected (Js.coalesce (error result) EmptyString) "SQL Parse Error"
  else
    let hasTables := (0 <? List.length (Js.keys (Sidebar.tables result)))%nat in
    let hasEnums :=
      (0 <? List.length (Js.keys (Sidebar.enumTypes result)))%nat in
    if negb hasTables && negb hasEnums
    then Rejected "No schema definitions detected" "Nothing to apply"
    else if String.eqb selectedTable "__all__"
    then Applied (Sidebar.tables result) (Sidebar.enumTypes result)
                 selectedTable
    else
      match Sidebar.tables result with
      | [] =>
          Rejected "Provide SQL for the selected table"
                   "Missing table definition"
      | [(newKey, newTable)] =>
          let nextTables :=
            fold_left
              (fun (next : TableState) (entry : string * Table.t) =>
                 if String.eqb (fst entry) selectedTable then next
                 else Js.set (fst entry) (snd entry) next)
              tables [] in
          let preservedPosition :=
            match Js.get selectedTable tables with
            | Some table => Table.position table
            | None => Table.position newTable
            end in
          let nextTables :=
            Js.set newKey (withPosition newTable preservedPosition)
                   nextTables in
          let mergedEnums := spread enumTypes (Sidebar.enumTypes result) in
          Applied nextTables mergedEnums newKey
      | _ :: _ :: _ =>
          Rejected "Multiple tables detected. Use Whole schema mode instead."
                   "Multiple tables detected"
      end.

End Sidebar.

(** ** The data parts written on the response stream of the agent route *)

Module Stream.

(** The [CustomDataPart]s this route writes.  The chunks of the agent's own
    message stream, merged into the same writer, are not data parts of the
    route and are left out. *)
Inductive DataPart : Type :=
| Notification (message level : string)
| Progress (message : string) (current total : nat) (phase : string)
| TablesBatch (id : string) (tables : TableState) (batchNumber : nat)
              (isComplete : bool)
| OperationHistory (operations : list Agent.OperationRecord) (canUndo : bool).

(** What happens between the start of the agent and the end of its text:
    a tool call or an abort of the request, or the 100 ms interval firing.
    No tool awaits, so the interval never fires inside a tool. *)
Inductive Event : Type :=
| Tool (ev : Agent.Event)
| Tick.

Record Writer : Type := mkWriter {
  request : Agent.State;
  lastStreamedOperationCount : nat;
  written : list DataPart
}.

Definition write (parts : list DataPart) (w : Writer) : Writer :=
  mkWriter (request w) (lastStreamedOperationCount w) (written w ++ parts).

Definition plural (n : nat) : string :=
  if Nat.eqb n 1 then EmptyString else "s".

(** The callback of [setInterval]. *)
Definition interval (w : Writer) : Writer :=
  let operationCount := Agent.operationCount (request w) in
  if (lastStreamedOperationCount w <? operationCount)%nat
  then
    mkWriter (request w) operationCount
      (written w
       ++ [Progress ("Processing operation " ++ Js.ofNat operationCount
                     ++ "...")
                    operationCount
                    (Nat.max (Agent.totalOperations (request w))
                             operationCount)
                    "processing";
           TablesBatch ("tables-update-" ++ Js.ofNat operationCount)
                       (cloneTables (Some (Agent.schemaState (request w))))
                       operationCount false])
  else w.

Definition onEvent (w : Writer) (ev : Event) : Writer :=
  match ev with
  | Tool ev =>
      mkWriter (snd (Agent.step (request w) ev))
               (lastStreamedOperationCount w) (written w)
  | Tick => interval w
  end.

(** After the text of the agent has ended, or the request was cancelled:
    the remaining update, then the final state. *)
Definition finish (w : Writer) : Writer :=
  let operationCount := Agent.operationCount (request w) in
  let schemaState := Agent.schemaState (request w) in
  let operationHistory := Agent.operationHistory (request w) in
  let w :=
    if (lastStreamedOperationCount w <? operationCount)%nat
    then
      write [Progress ("Completed operation " ++ Js.ofNat operationCount)
                      operationCount operationCount "processing";
             TablesBatch ("tables-update-" ++ Js.ofNat operationCount)
                         (cloneTables (Some schemaState))
                         operationCount false] w
    else w in
  let tableCount := List.length (Js.keys schemaState) in
  if (0 <? operationCount)%nat
  then
    let w :=
      write [TablesBatch "tables-final" (cloneTables (Some schemaState))
                         (operationCount + 1) true;
             Notification
               ("Completed " ++ Js.ofNat operationCount ++ " operation"
                ++ plural operationCount ++ ". " ++ Js.ofNat tableCount
                ++ " table" ++ plural tableCount ++ " in workspace.")
               "success"] w in
    if (0 <? List.length operationHistory)%nat
    then write [OperationHistory operationHistory
                  (0 <? List.length operationHistory)%nat] w
    else w
  else w.

(** [createUIMessageStream({ execute })] on a request body with [schema],
    for the events of the run. *)
Definition execute (schema : option TableState) (events : list Event)
  : Writer :=
  finish
    (fold_left onEvent events
       (mkWriter (Agent.start schema) 0
          [Notification "Processing your request..." "info"])).

End Stream.

(** The table batches of a stream, in the order written. *)
Definition batches (parts : list Stream.DataPart)
  : list (TableState * nat * bool) :=
  flat_map (fun part =>
              match part with
              | Stream.TablesBatch _ tables n complete =>
                  [(tables, n, complete)]
              | _ => []
              end) parts.

Definition batchNumber (batch : TableState * nat * bool) : nat :=
  snd (fst batch).

Definition isComplete (batch : TableState * nat * bool) : bool := snd batch.

(** What holds of the writer while the agent runs. *)
Definition streaming (w : Stream.Writer) : Prop :=
  let c := Agent.operationCount (Stream.request w) in
  let l := Stream.lastStreamedOperationCount w in
  let bs := batches (Stream.written w) in
  l <= c
  /\ Forall (fun b => batchNumber b <= l /\ isComplete b = false) bs
  /\ StronglySorted lt (map batchNumber bs)
  /\ (0 < l ->
      exists updates tables,
        bs = updates ++ [(tables, l, false)]
        /\ (l = c -> tables = Agent.schemaState (Stream.request w)))
  /\ (l = 0 ->
      Stream.written w = [Stream.Notification "Processing your request..."
                                              "info"]).

(** ** The chat history ([useChatHistory]) *)

Module ChatHistory.

Record GroupedThreads (Thread : Type) : Type := mkGrouped {
  today : list Thread;
  yesterday : list Thread;
  thisWeek : list Thread;
  thisMonth : list Thread;
  older : list Thread
}.

Arguments mkGrouped {Thread}.
Arguments today {Thread}.
Arguments yesterday {Thread}.
Arguments thisWeek {Thread}.
Arguments thisMonth {Thread}.
Arguments older {Thread}.

(** [groupThreadsByTime]; [now] is the value of [Date.now()], and of a
    thread summary only [updatedAt] is read. *)
Definition groupThreadsByTime {Thread : Type} (updatedAt : Thread -> Z)
    (now : Z) (threads : list Thread) : GroupedThreads Thread :=
  let oneDayAgo := (now - 24 * 60 * 60 * 1000)%Z in
  let twoDaysAgo := (now - 2 * 24 * 60 * 60 * 1000)%Z in
  let oneWeekAgo := (now - 7 * 24 * 60 * 60 * 1000)%Z in
  let oneMonthAgo := (now - 30 * 24 * 60 * 60 * 1000)%Z in
  fold_left
    (fun grouped thread =>
       if (updatedAt thread >? oneDayAgo)%Z
       then mkGrouped (today grouped ++ [thread]) (yesterday grouped)
                      (thisWeek grouped) (thisMonth grouped) (older grouped)
       else if (updatedAt thread >? twoDaysAgo)%Z
       then mkGrouped (today grouped) (yesterday grouped ++ [thread])
                      (thisWeek grouped) (thisMonth grouped) (older grouped)
       else if (updatedAt thread >? oneWeekAgo)%Z
       then mkGrouped (today grouped) (yesterday grouped)
                      (thisWeek grouped ++ [thread]) (thisMonth grouped)
                      (older grouped)
       else if (updatedAt thread >? oneMonthAgo)%Z
       then mkGrouped (today grouped) (yesterday grouped)
                      (thisWeek grouped) (thisMonth grouped ++ [thread])
                      (older grouped)
       else mkGrouped (today grouped) (yesterday grouped)
                      (thisWeek grouped) (thisMonth grouped)
                      (older grouped ++ [thread]))
    threads
    (mkGrouped [] [] [] [] []).

End ChatHistory.

(** One day, in milliseconds. *)
Definition day : Z := 86400000.

(** The threads whose last update is at least [from] days and less than
    [to] days old, in the order of the list. *)
Definition agedBetween {Thread : Type} (updatedAt : Thread -> Z) (now : Z)
    (from to : option Z) (threads : list Thread) : list Thread :=
  filter (fun thread =>
            match from with
            | Some from => (from * day <=? now - updatedAt thread)%Z
            | None => true
            end
            && match to with
               | Some to => (now - updatedAt thread <? to * day)%Z
               | None => true
               end)
         threads.

(** ** The search bar *)

Module SearchBar.

(** The update of the recent searches in [saveRecentSearch], for a query
    that is not blank: the function passed to [setRecentSearches]; what it
    returns is also what it stores under ['recent-searches']. *)
Definition saveRecentSearch (query : string) (prev : list string)
  : list string :=
  let filtered := filter (fun s => negb (String.eqb s query)) prev in
  firstn 10 (query :: filtered).

End SearchBar.

(** * Properties *)

(** Replaces a closed term by its value. *)
Ltac evaluate c := let x := eval vm_compute in c in change c with x in *.

(** ** Objects as maps *)

Section ObjFacts.
Context {V : Type}.
Implicit Types (o : Js.obj V) (k key : string) (v : V).

Lemma get_none_keys o k : Js.get k o = None <-> ~ In k (Js.keys o).
Proof.
  induction o as [|[k0 v0] o IH]; simpl.
  - tauto.
  - destruct (String.eqb_spec k0 k) as [->|Hne].
    + split; [discriminate | intros H; exfalso; apply H; now left].
    + rewrite IH. split.
      * intros H [H1|H1]; [now apply Hne | now apply H].
      * intros H H1. apply H. now right.
Qed.

Lemma get_some_keys o k v : Js.get k o = Some v -> In k (Js.keys o).
Proof.
  intros H. destruct (in_dec string_dec k (Js.keys o)) as [Hin|Hnin]; auto.
  apply get_none_keys in Hnin. congruence.
Qed.

Lemma keys_get_some o k : In k (Js.keys o) -> exists v, Js.get k o = Some v.
Proof.
  intros Hin. destruct (Js.get k o) as [v|] eqn:E; eauto.
  apply get_none_keys in E. contradiction.
Qed.

Lemma keys_replace o k v : Js.keys (Js.replace k v o) = Js.keys o.
Proof.
  induction o as [|[k0 v0] o IH]; simpl; auto.
  destruct (String.eqb k0 k); simpl; [reflexivity | now rewrite IH].
Qed.

Lemma get_replace_same o k v :
  In k (Js.keys o) -> Js.get k (Js.replace k v o) = Some v.
Proof.
  induction o as [|[k0 v0] o IH]; simpl; [tauto|].
  intros Hin. destruct (String.eqb_spec k0 k) as [->|Hne]; simpl.
  - now rewrite String.eqb_refl.
  - destruct (String.eqb_spec k0 k); [contradiction|].
    apply IH. destruct Hin; [contradiction | assumption].
Qed.

Lemma get_replace_other o k k' v :
  k' <> k -> Js.get k' (Js.replace k v o) = Js.get k' o.
Proof.
  intros Hne. induction o as [|[k0 v0] o IH]; simpl; auto.
  destruct (String.eqb_spec k0 k) as [->|Hne0]; simpl.
  - destruct (String.eqb_spec k k'); [congruence | reflexivity].
  - now rewrite IH.
Qed.

Lemma replace_same_value o k v :
  Js.get k o = Some v -> Js.replace k v o = o.
Proof.
  induction o as [|[k0 v0] o IH]; simpl; auto.
  destruct (String.eqb_spec k0 k) as [->|Hne].
  - now intros [= ->].
  - intros H. now rewrite IH.
Qed.

Lemma keys_delete o k k' :
  In k' (Js.keys (Js.delete k o)) <-> k' <> k /\ In k' (Js.keys o).
Proof.
  induction o as [|[k0 v0] o IH]; simpl; [tauto|].
  destruct (String.eqb_spec k0 k) as [->|Hne]; simpl.
  - rewrite IH. split; [tauto|]. intros [H1 [H2|H2]]; [congruence | tauto].
  - rewrite IH. split.
    + intros [->|[H1 H2]]; tauto.
    + intros [H1 [H2|H2]]; tauto.
Qed.

Lemma get_delete_same o k : Js.get k (Js.delete k o) = None.
Proof.
  apply get_none_keys. rewrite keys_delete. tauto.
Qed.

Lemma get_delete_other o k k' :
  k' <> k -> Js.get k' (Js.delete k o) = Js.get k' o.
Proof.
  intros Hne. induction o as [|[k0 v0] o IH]; simpl; auto.
  destruct (String.eqb_spec k0 k) as [->|Hne0]; simpl.
  - rewrite IH. destruct (String.eqb_spec k k'); [congruence | reflexivity].
  - now rewrite IH.
Qed.

Lemma delete_absent o k : Js.get k o = None -> Js.delete k o = o.
Proof.
  induction o as [|[k0 v0] o IH]; simpl; auto.
  destruct (String.eqb_spec k0 k) as [->|Hne]; [discriminate|].
  intros H. now rewrite IH.
Qed.

Lemma nodup_delete o k : NoDup (Js.keys o) -> NoDup (Js.keys (Js.delete k o)).
Proof.
  induction o as [|[k0 v0] o IH]; simpl; auto.
  intros Hnd. inversion Hnd as [|? ? Hnin Hnd']; subst.
  destruct (String.eqb k0 k); simpl; auto.
  constructor; auto. rewrite keys_delete. tauto.
Qed.

Lemma keys_insertIndex o n k v :
  Permutation (Js.keys (Js.insertIndex n k v o)) (k :: Js.keys o).
Proof.
  induction o as [|[k0 v0] o IH]; simpl; auto.
  destruct (Js.arrayIndex k0) as [m|]; [|reflexivity].
  destruct (m <? n)%N; simpl; [|reflexivity].
  rewrite IH. apply perm_swap.
Qed.

Lemma get_insertIndex o n k k' v :
  Js.get k o = None ->
  Js.get k' (Js.insertIndex n k v o)
  = if String.eqb k k' then Some v else Js.get k' o.
Proof.
  induction o as [|[k0 v0] o IH]; simpl; auto.
  destruct (String.eqb_spec k0 k) as [->|Hne]; [discriminate|].
  intros Hk. destruct (Js.arrayIndex k0) as [m|]; [|reflexivity].
  destruct (m <? n)%N; simpl; [|reflexivity].
  rewrite IH by assumption.
  destruct (String.eqb_spec k0 k'), (String.eqb_spec k k'); subst;
    congruence.
Qed.

Lemma get_app o o' k :
  Js.get k (o ++ o') = match Js.get k o with
                       | Some v => Some v
                       | None => Js.get k o'
                       end.
Proof.
  induction o as [|[k0 v0] o IH]; simpl; auto.
  destruct (String.eqb k0 k); auto.
Qed.

Lemma get_set o k k' v :
  Js.get k' (Js.set k v o)
  = if String.eqb k k' then Some v else Js.get k' o.
Proof.
  unfold Js.set. destruct (Js.get k o) as [w|] eqn:E.
  - destruct (String.eqb_spec k k') as [<-|Hne].
    + apply get_replace_same. eapply get_some_keys; eauto.
    + apply get_replace_other. congruence.
  - destruct (Js.arrayIndex k) as [n|].
    + now apply get_insertIndex.
    + rewrite get_app. simpl.
      destruct (Js.get k' o) eqn:E'.
      * destruct (String.eqb_spec k k'); [congruence | reflexivity].
      * reflexivity.
Qed.

Lemma get_set_same o k v : Js.get k (Js.set k v o) = Some v.
Proof. rewrite get_set. now rewrite String.eqb_refl. Qed.

Lemma get_set_other o k k' v :
  k' <> k -> Js.get k' (Js.set k v o) = Js.get k' o.
Proof.
  intros Hne. rewrite get_set.
  destruct (String.eqb_spec k k'); [congruence | reflexivity].
Qed.

Lemma keys_set_new o k v :
  Js.get k o = None -> Permutation (Js.keys (Js.set k v o)) (k :: Js.keys o).
Proof.
  intros E. unfold Js.set. rewrite E.
  destruct (Js.arrayIndex k) as [n|].
  - apply keys_insertIndex.
  - unfold Js.keys. rewrite map_app. simpl.
    symmetry. apply Permutation_cons_append.
Qed.

Lemma keys_set_old o k v w :
  Js.get k o = Some w -> Js.keys (Js.set k v o) = Js.keys o.
Proof.
  intros E. unfold Js.set. rewrite E. apply keys_replace.
Qed.

Lemma keys_set o k k' v :
  In k' (Js.keys (Js.set k v o)) <-> k' = k \/ In k' (Js.keys o).
Proof.
  destruct (Js.get k o) as [w|] eqn:E.
  - rewrite (keys_set_old _ _ _ _ E). split; [tauto|].
    intros [->|H]; auto. eapply get_some_keys; eauto.
  - split; intros H.
    + apply (Permutation_in _ (keys_set_new _ _ v E)) in H.
      destruct H; auto.
    + apply (Permutation_in _ (Permutation_sym (keys_set_new _ _ v E))).
      destruct H; [left; auto | right; auto].
Qed.

Lemma nodup_set o k v : NoDup (Js.keys o) -> NoDup (Js.keys (Js.set k v o)).
Proof.
  intros Hnd. destruct (Js.get k o) as [w|] eqn:E.
  - now rewrite (keys_set_old _ _ _ _ E).
  - apply (Permutation_NoDup (Permutation_sym (keys_set_new _ _ v E))).
    constructor; auto. now apply get_none_keys.
Qed.

Lemma nodup_replace o k v :
  NoDup (Js.keys o) -> NoDup (Js.keys (Js.replace k v o)).
Proof. now rewrite keys_replace. Qed.

End ObjFacts.

(** ** The ordering loop *)

Lemma arrayIncludes_In arr v : Js.arrayIncludes arr v = true <-> In v arr.
Proof.
  unfold Js.arrayIncludes. rewrite existsb_exists. split.
  - intros [x [Hin Heq]]. apply String.eqb_eq in Heq. now subst.
  - intros Hin. exists v. split; [assumption | apply String.eqb_refl].
Qed.

Lemma splice1_length {A : Type} (i : nat) (arr : list A) (a : A) :
  nth_error arr i = Some a -> S (List.length (Js.splice1 i arr)) = List.length arr.
Proof.
  revert i. induction arr as [|b arr IH]; intros [|i]; simpl;
    try discriminate; auto.
Qed.

Lemma splice1_perm {A : Type} (i : nat) (arr : list A) (a : A) :
  nth_error arr i = Some a -> Permutation (a :: Js.splice1 i arr) arr.
Proof.
  revert i. induction arr as [|b arr IH]; intros [|i]; simpl;
    try discriminate.
  - now intros [= ->].
  - intros H. rewrite perm_swap. constructor. auto.
Qed.

Section Loop.
Variable deps : Js.obj (list string).

(** The two outcomes of the body of the [for ... in] loop. *)
Lemma forInBody_cases keys output i :
  forInBody deps (keys, output) i = (keys, output)
  \/ exists key d,
       nth_error keys i = Some key
       /\ Js.get key deps = Some d
       /\ (forall x, In x d -> In x output)
       /\ forInBody deps (keys, output) i
          = (Js.splice1 i keys, output ++ [key]).
Proof.
  unfold forInBody.
  destruct (nth_error keys i) as [key|] eqn:Hnth; auto.
  destruct (Js.get key deps) as [d|] eqn:Hget; auto.
  destruct (forallb _ d) eqn:Hall; auto.
  right. exists key, d. repeat split; auto.
  intros x Hx. rewrite forallb_forall in Hall.
  apply arrayIncludes_In. auto.
Qed.

Lemma forInBody_ready keys output i key :
  nth_error keys i = Some key ->
  readyIn deps output key = true ->
  forInBody deps (keys, output) i = (Js.splice1 i keys, output ++ [key]).
Proof.
  unfold forInBody, readyIn. intros -> H.
  destruct (Js.get key deps); [now rewrite H | discriminate].
Qed.

Lemma forInBody_invariant all state i :
  loopInvariant deps all state -> loopInvariant deps all (forInBody deps state i).
Proof.
  destruct state as [keys output]. intros [Hperm Hord].
  destruct (forInBody_cases keys output i)
    as [->|(key & d & Hnth & Hget & Hin & ->)]; [now split|].
  split; simpl in *.
  - etransitivity; [|exact Hperm].
    etransitivity;
      [|apply Permutation_app_tail; apply (splice1_perm _ _ _ Hnth)].
    rewrite app_assoc. simpl. symmetry. apply Permutation_cons_append.
  - econstructor; eauto.
Qed.

Lemma forInBody_length state i :
  forInBody deps state i = state
  \/ S (List.length (fst (forInBody deps state i))) = List.length (fst state).
Proof.
  destruct state as [keys output].
  destruct (forInBody_cases keys output i)
    as [->|(key & d & Hnth & _ & _ & ->)]; auto.
  right. simpl. eapply splice1_length; eauto.
Qed.

Lemma fold_forInBody_invariant all indices state :
  loopInvariant deps all state ->
  loopInvariant deps all (fold_left (forInBody deps) indices state).
Proof.
  revert state. induction indices as [|i indices IH]; simpl; auto.
  intros state H. apply IH. now apply forInBody_invariant.
Qed.

Lemma fold_forInBody_length indices state :
  List.length (fst (fold_left (forInBody deps) indices state))
  <= List.length (fst state).
Proof.
  revert state. induction indices as [|i indices IH]; simpl; auto.
  intros state. specialize (IH (forInBody deps state i)).
  destruct (forInBody_length state i) as [E|E]; [congruence | lia].
Qed.

(** A ready key at one of the indices still to visit is a key less. *)
Lemma fold_forInBody_progress n a keys output :
  (exists j key,
      a <= j < a + n /\ nth_error keys j = Some key
      /\ readyIn deps output key = true) ->
  List.length (fst (fold_left (forInBody deps) (seq a n) (keys, output)))
  < List.length keys.
Proof.
  revert a. induction n as [|n IH]; intros a (j & key & Hj & Hnth & Hready).
  - lia.
  - cbn [seq fold_left]. destruct (Nat.eq_dec j a) as [->|Hne].
    + rewrite (forInBody_ready _ _ _ _ Hnth Hready).
      pose proof (fold_forInBody_length (seq (S a) n)
                    (Js.splice1 a keys, output ++ [key])) as Hle.
      pose proof (splice1_length _ _ _ Hnth) as Hlen. simpl in Hle. lia.
    + destruct (forInBody_length (keys, output) a) as [E|E].
      * rewrite E. apply IH. exists j, key. repeat split; auto; lia.
      * pose proof (fold_forInBody_length (seq (S a) n)
                      (forInBody deps (keys, output) a)) as Hle.
        cbn [fst] in E. lia.
Qed.

Lemma forIn_invariant all keys output :
  loopInvariant deps all (keys, output) ->
  loopInvariant deps all (forIn deps keys output).
Proof. apply fold_forInBody_invariant. Qed.

Lemma forIn_progress keys output key :
  In key keys -> readyIn deps output key = true ->
  List.length (fst (forIn deps keys output)) < List.length keys.
Proof.
  intros Hin Hready. apply fold_forInBody_progress.
  destruct (In_nth_error _ _ Hin) as [j Hj].
  exists j, key. repeat split; auto; try lia.
  simpl. apply nth_error_Some. congruence.
Qed.

(** Whatever the loop returns is a reordering of the keys, built in
    dependency order. *)
Lemma whileKeys_invariant all fuel keys output result :
  loopInvariant deps all (keys, output) ->
  whileKeys fuel deps keys output = Some result ->
  Permutation result all /\ ordered deps result.
Proof.
  revert keys output. induction fuel as [|fuel IH]; intros keys output Hinv.
  - destruct keys; simpl; [|discriminate].
    intros [= <-]. exact Hinv.
  - destruct keys as [|k keys]; simpl.
    + intros [= <-]. exact Hinv.
    + pose proof (forIn_invariant all _ _ Hinv) as Hinv'.
      destruct (forIn deps (k :: keys) output) as [keys' output'].
      now apply IH.
Qed.

End Loop.

(** ** Positions in the output *)

Lemma findIndex_bound {A : Type} (p : A -> bool) arr i :
  Js.findIndex p arr = Some i -> i < List.length arr.
Proof.
  revert i. induction arr as [|a arr IH]; simpl; [discriminate|].
  intros i. destruct (p a).
  - intros [= <-]. lia.
  - destruct (Js.findIndex p arr) as [j|]; simpl; [|discriminate].
    intros [= <-]. specialize (IH j eq_refl). lia.
Qed.

Lemma findIndex_app_found {A : Type} (p : A -> bool) arr arr' i :
  Js.findIndex p arr = Some i -> Js.findIndex p (arr ++ arr') = Some i.
Proof.
  revert i. induction arr as [|a arr IH]; simpl; [discriminate|].
  intros i. destruct (p a); auto.
  destruct (Js.findIndex p arr) as [j|]; simpl; [|discriminate].
  intros [= <-]. now rewrite (IH j eq_refl).
Qed.

Lemma findIndex_app_missing {A : Type} (p : A -> bool) arr arr' :
  Js.findIndex p arr = None ->
  Js.findIndex p (arr ++ arr')
  = option_map (Nat.add (List.length arr)) (Js.findIndex p arr').
Proof.
  induction arr as [|a arr IH]; simpl.
  - intros _. now destruct (Js.findIndex p arr').
  - destruct (p a); [discriminate|].
    destruct (Js.findIndex p arr) as [j|]; simpl; [discriminate|].
    intros _. rewrite IH by reflexivity.
    now destruct (Js.findIndex p arr').
Qed.

Lemma indexOf_in v arr : In v arr -> exists i, indexOf v arr = Some i.
Proof.
  unfold indexOf. induction arr as [|a arr IH]; simpl; [tauto|].
  intros [->|Hin].
  - rewrite String.eqb_refl. eauto.
  - destruct (String.eqb v a); eauto.
    destruct (IH Hin) as [i ->]. simpl. eauto.
Qed.

Lemma indexOf_missing v arr : ~ In v arr -> indexOf v arr = None.
Proof.
  unfold indexOf. induction arr as [|a arr IH]; simpl; auto.
  intros H. destruct (String.eqb_spec v a) as [->|Hne]; [tauto|].
  rewrite IH; tauto.
Qed.

Lemma precedes_app d t output rest :
  precedes d t output -> precedes d t (output ++ rest).
Proof.
  unfold precedes, indexOf.
  destruct (Js.findIndex (String.eqb d) output) as [i|] eqn:Ei; [|tauto].
  destruct (Js.findIndex (String.eqb t) output) as [j|] eqn:Ej; [|tauto].
  now rewrite (findIndex_app_found _ _ rest _ Ei),
              (findIndex_app_found _ _ rest _ Ej).
Qed.

Lemma precedes_push d t output :
  In d output -> ~ In t output -> precedes d t (output ++ [t]).
Proof.
  intros Hd Ht. unfold precedes.
  destruct (indexOf_in _ _ Hd) as [i Ei].
  unfold indexOf in *.
  rewrite (findIndex_app_found _ _ [t] _ Ei).
  rewrite findIndex_app_missing by now apply indexOf_missing.
  simpl. rewrite String.eqb_refl. simpl.
  apply findIndex_bound in Ei. lia.
Qed.

(** In an output built in dependency order, every key comes after its
    dependencies. *)
Lemma ordered_precedes deps output :
  ordered deps output ->
  forall t d x,
    In t output -> Js.get t deps = Some d -> In x d -> precedes x t output.
Proof.
  induction 1 as [|output key d0 Hord IH Hget Hin]; intros t d x Ht Hd Hx.
  - destruct Ht.
  - destruct (in_dec string_dec t output) as [Hold|Hnew].
    + apply precedes_app. eauto.
    + apply in_app_or in Ht. destruct Ht as [Ht|[<-|[]]]; [contradiction|].
      apply precedes_push; auto.
      apply Hin. congruence.
Qed.

Lemma precedes_in d t output :
  precedes d t output -> In d output /\ In t output.
Proof.
  unfold precedes.
  destruct (indexOf d output) as [i|] eqn:Ei; [|tauto].
  destruct (indexOf t output) as [j|] eqn:Ej; [|tauto].
  intros _. split.
  - destruct (in_dec string_dec d output) as [H|H]; auto.
    apply indexOf_missing in H. congruence.
  - destruct (in_dec string_dec t output) as [H|H]; auto.
    apply indexOf_missing in H. congruence.
Qed.

Lemma precedes_trans a b c output :
  precedes a b output -> precedes b c output -> precedes a c output.
Proof.
  unfold precedes.
  destruct (indexOf a output), (indexOf b output), (indexOf c output);
    try tauto; lia.
Qed.

Lemma precedes_irrefl a output : ~ precedes a a output.
Proof.
  unfold precedes. destruct (indexOf a output); [lia | tauto].
Qed.

(** ** Acyclic dependencies: some key is always ready *)

Section Chains.
Variable R : string -> string -> Prop.

Lemma chain_reach a r :
  chain R (a :: r) -> forall y, In y r -> clos_trans string R a y.
Proof.
  revert a. induction r as [|b r IH]; intros a Hc y Hy; [destruct Hy|].
  destruct Hc as [Hab Hc]. destruct Hy as [<-|Hy].
  - now apply t_step.
  - eapply t_trans; [apply t_step; eassumption | now apply IH].
Qed.

Lemma chain_tail a r : chain R (a :: r) -> chain R r.
Proof. destruct r; simpl; tauto. Qed.

Lemma chain_nodup_or_cycle l :
  chain R l -> NoDup l \/ exists x, clos_trans string R x x.
Proof.
  induction l as [|a r IH]; intros Hc; [left; constructor|].
  destruct (IH (chain_tail _ _ Hc)) as [Hnd|Hcyc]; [|now right].
  destruct (in_dec string_dec a r) as [Hin|Hnin].
  - right. exists a. now apply chain_reach with r.
  - left. now constructor.
Qed.

(** When every key has a successor among the keys, chains get as long as
    one wishes. *)
Lemma long_chain keys :
  (forall k, In k keys -> exists x, In x keys /\ R k x) ->
  forall n k, In k keys ->
    exists l, List.length l = S n /\ chain R (k :: l) /\ incl (k :: l) keys.
Proof.
  intros Hnext. induction n as [|n IH]; intros k Hk.
  - destruct (Hnext k Hk) as (x & Hx & Hkx).
    exists [x]. repeat split; auto.
    intros y [<-|[<-|[]]]; assumption.
  - destruct (Hnext k Hk) as (x & Hx & Hkx).
    destruct (IH x Hx) as (l & Hlen & Hc & Hincl).
    exists (x :: l). repeat split; simpl; auto.
    intros y [<-|Hy]; auto.
Qed.

Lemma successors_cycle keys :
  keys <> [] ->
  (forall k, In k keys -> exists x, In x keys /\ R k x) ->
  exists x, clos_trans string R x x.
Proof.
  intros Hne Hnext. destruct keys as [|k keys]; [congruence|].
  destruct (long_chain _ Hnext (List.length (k :: keys)) k (or_introl eq_refl))
    as (l & Hlen & Hc & Hincl).
  destruct (chain_nodup_or_cycle _ Hc) as [Hnd|Hcyc]; auto.
  pose proof (NoDup_incl_length Hnd Hincl) as Hle. simpl in Hle, Hlen. lia.
Qed.

End Chains.

Lemma forallb_false {A : Type} (p : A -> bool) l :
  forallb p l = false -> exists x, In x l /\ p x = false.
Proof.
  induction l as [|a l IH]; simpl; [discriminate|].
  destruct (p a) eqn:E; simpl.
  - intros H. destruct (IH H) as (x & Hx & Hp). eauto.
  - intros _. eauto.
Qed.

Section Termination.
Variable deps : Js.obj (list string).
Variable all : list string.
Hypothesis deps_defined : forall k, In k all -> exists d, Js.get k deps = Some d.
Hypothesis deps_closed : forall k x, In k all -> edge deps k x -> In x all.
Hypothesis deps_acyclic : forall t, ~ clos_trans string (edge deps) t t.

Lemma exists_ready keys output :
  Permutation (keys ++ output) all ->
  keys <> [] ->
  exists key, In key keys /\ readyIn deps output key = true.
Proof.
  intros Hperm Hne.
  destruct (existsb (readyIn deps output) keys) eqn:E.
  - apply existsb_exists in E. exact E.
  - exfalso.
    destruct (successors_cycle (edge deps) keys Hne) as [x Hx];
      [|now apply (deps_acyclic x)].
    intros k Hk.
    assert (Hall : In k all).
    { apply (Permutation_in _ Hperm). apply in_or_app. now left. }
    assert (Hnot : readyIn deps output k = false).
    { destruct (readyIn deps output k) eqn:Er; auto.
      assert (existsb (readyIn deps output) keys = true)
        by (apply existsb_exists; eauto).
      congruence. }
    unfold readyIn in Hnot. destruct (deps_defined k Hall) as [d Hd].
    rewrite Hd in Hnot. apply forallb_false in Hnot.
    destruct Hnot as (x & Hxd & Hxo).
    assert (Hedge : edge deps k x) by (exists d; auto).
    exists x. split; auto.
    pose proof (deps_closed k x Hall Hedge) as Hxall.
    apply (Permutation_in _ (Permutation_sym Hperm)) in Hxall.
    apply in_app_or in Hxall. destruct Hxall as [H|H]; auto.
    apply arrayIncludes_In in H. congruence.
Qed.

(** With as many turns as there are keys, the [while] loop ends. *)
Lemma whileKeys_terminates fuel keys output :
  loopInvariant deps all (keys, output) ->
  List.length keys <= fuel ->
  exists result, whileKeys fuel deps keys output = Some result.
Proof.
  revert keys output. induction fuel as [|fuel IH]; intros keys output Hinv Hlen.
  - destruct keys; simpl in *; [eauto | lia].
  - destruct keys as [|k keys]; simpl; [eauto|].
    destruct (exists_ready (k :: keys) output (proj1 Hinv))
      as (key & Hkey & Hready); [discriminate|].
    pose proof (forIn_progress deps _ _ _ Hkey Hready) as Hlt.
    pose proof (forIn_invariant deps all _ _ Hinv) as Hinv'.
    destruct (forIn deps (k :: keys) output) as [keys' output'].
    apply IH; auto. simpl in *. lia.
Qed.

End Termination.

(** ** The [dependencies] object of a table state *)

Lemma dependencies_fold_get (tables : TableState) acc k :
  NoDup (Js.keys tables) ->
  Js.get k
    (fold_left
       (fun deps (entry : string * Table.t) =>
          Js.set (fst entry) (dependenciesOf (fst entry) (snd entry)) deps)
       tables acc)
  = match Js.get k tables with
    | Some value => Some (dependenciesOf k value)
    | None => Js.get k acc
    end.
Proof.
  revert acc. induction tables as [|[k0 v0] tables IH]; intros acc Hnd; auto.
  inversion Hnd as [|? ? Hnin Hnd']; subst. simpl.
  rewrite IH by assumption.
  destruct (String.eqb_spec k0 k) as [->|Hne].
  - apply get_none_keys in Hnin. rewrite Hnin. apply get_set_same.
  - destruct (Js.get k tables); auto. apply get_set_other. congruence.
Qed.

Lemma dependencies_fold_keys (tables : TableState) acc k :
  In k (Js.keys
          (fold_left
             (fun deps (entry : string * Table.t) =>
                Js.set (fst entry) (dependenciesOf (fst entry) (snd entry))
                       deps)
             tables acc))
  <-> In k (Js.keys tables) \/ In k (Js.keys acc).
Proof.
  revert acc. induction tables as [|[k0 v0] tables IH]; intros acc; simpl.
  - tauto.
  - rewrite IH, keys_set. simpl. intuition auto.
Qed.

Lemma dependencies_fold_nodup (tables : TableState) acc :
  NoDup (Js.keys acc) ->
  NoDup (Js.keys
           (fold_left
              (fun deps (entry : string * Table.t) =>
                 Js.set (fst entry) (dependenciesOf (fst entry) (snd entry))
                        deps)
              tables acc)).
Proof.
  revert acc. induction tables as [|[k0 v0] tables IH]; intros acc Hnd; auto.
  simpl. apply IH. now apply nodup_set.
Qed.

Lemma dependencies_get tables k :
  NoDup (Js.keys tables) ->
  Js.get k (dependencies tables)
  = option_map (dependenciesOf k) (Js.get k tables).
Proof.
  intros Hnd. unfold dependencies. rewrite dependencies_fold_get by assumption.
  now destruct (Js.get k tables).
Qed.

Lemma dependencies_keys tables :
  NoDup (Js.keys tables) ->
  Permutation (Js.keys (dependencies tables)) (Js.keys tables).
Proof.
  intros Hnd. apply NoDup_Permutation; auto.
  - apply dependencies_fold_nodup. constructor.
  - intros k. unfold dependencies. rewrite dependencies_fold_keys.
    simpl. tauto.
Qed.

Lemma edge_dependsOn tables k x :
  NoDup (Js.keys tables) ->
  edge (dependencies tables) k x <-> dependsOn tables k x.
Proof.
  intros Hnd. unfold edge, dependsOn.
  rewrite dependencies_get by assumption. split.
  - intros (d & Hd & Hx). destruct (Js.get k tables) as [value|];
      [|discriminate].
    injection Hd as <-. eauto.
  - intros (value & -> & Hx). simpl. eauto.
Qed.

Lemma clos_trans_iff {A : Type} (R S : A -> A -> Prop) :
  (forall a b, R a b -> S a b) ->
  forall a b, clos_trans A R a b -> clos_trans A S a b.
Proof.
  intros H a b. induction 1.
  - apply t_step. auto.
  - eapply t_trans; eauto.
Qed.

(** Whatever the ordering returns lists every table once, each one after
    the tables it references. *)
Lemma dependencyOrder_sound tables fuel output :
  NoDup (Js.keys tables) ->
  dependencyOrder fuel tables = Some output ->
  Permutation output (Js.keys tables)
  /\ forall t d, dependsOn tables t d -> precedes d t output.
Proof.
  intros Hnd Hrun. unfold dependencyOrder in Hrun.
  destruct (whileKeys_invariant (dependencies tables)
              (Js.keys (dependencies tables)) fuel
              (Js.keys (dependencies tables)) [] output)
    as [Hperm Hord]; auto.
  { split; simpl; [now rewrite app_nil_r | constructor]. }
  pose proof (dependencies_keys tables Hnd) as Hkeys.
  split; [now rewrite Hperm|].
  intros t d Hdep.
  pose proof Hdep as (value & Hget & Hin).
  apply (ordered_precedes _ _ Hord t (dependenciesOf t value)); auto.
  - apply (Permutation_in _ (Permutation_sym Hperm)).
    apply (Permutation_in _ (Permutation_sym Hkeys)).
    eapply get_some_keys; eauto.
  - rewrite dependencies_get by assumption. now rewrite Hget.
Qed.

(** With one turn per table, the ordering of an acyclic state whose
    foreign keys name existing tables ends. *)
Lemma dependencyOrder_ends tables :
  NoDup (Js.keys tables) -> acyclic tables -> fkClosed tables ->
  exists output, dependencyOrder (List.length tables) tables = Some output.
Proof.
  intros Hnd Hacyc Hclosed. unfold dependencyOrder.
  pose proof (dependencies_keys tables Hnd) as Hkeys.
  apply whileKeys_terminates with (all := Js.keys (dependencies tables)).
  - intros k Hk. now apply keys_get_some.
  - intros k x Hk Hedge. apply (Permutation_in _ (Permutation_sym Hkeys)).
    apply (Hclosed k). now apply edge_dependsOn.
  - intros t Hcyc. apply (Hacyc t).
    revert Hcyc. apply clos_trans_iff. intros a b. now apply edge_dependsOn.
  - split; simpl; [now rewrite app_nil_r | constructor].
  - rewrite (Permutation_length Hkeys). unfold Js.keys.
    now rewrite length_map.
Qed.

(** A cycle of foreign keys, or a foreign key into a table that is not
    there, keeps the [while] loop turning for ever. *)
Lemma dependencyOrder_cycle tables t :
  NoDup (Js.keys tables) ->
  clos_trans string (dependsOn tables) t t ->
  forall fuel, dependencyOrder fuel tables = None.
Proof.
  intros Hnd Hcyc fuel.
  destruct (dependencyOrder fuel tables) as [output|] eqn:E; auto.
  destruct (dependencyOrder_sound _ _ _ Hnd E) as [_ Hprec].
  exfalso. apply (precedes_irrefl t output).
  assert (H : forall a b, clos_trans string (dependsOn tables) a b ->
                          precedes b a output).
  { induction 1; auto. eapply precedes_trans; eauto. }
  auto.
Qed.

Lemma dependencyOrder_dangling tables t d :
  NoDup (Js.keys tables) ->
  dependsOn tables t d -> ~ In d (Js.keys tables) ->
  forall fuel, dependencyOrder fuel tables = None.
Proof.
  intros Hnd Hdep Hnin fuel.
  destruct (dependencyOrder fuel tables) as [output|] eqn:E; auto.
  destruct (dependencyOrder_sound _ _ _ Hnd E) as [Hperm Hprec].
  exfalso. apply Hnin. apply (Permutation_in _ Hperm).
  exact (proj1 (precedes_in d t output (Hprec t d Hdep))).
Qed.

(** A ranking of the tables that foreign keys only descend shows that
    there is no cycle. *)
Lemma ranked_acyclic tables (rank : string -> nat) :
  (forall t d, dependsOn tables t d -> rank d < rank t) -> acyclic tables.
Proof.
  intros Hrank t Hcyc.
  assert (H : forall a b, clos_trans string (dependsOn tables) a b ->
                          rank b < rank a).
  { induction 1; auto. lia. }
  specialize (H t t Hcyc). lia.
Qed.

(** ** Dependency order of the exports *)


Lemma usersPosts_dependsOn t d :
  dependsOn usersPosts t d -> t = "posts" /\ d = "users".
Proof.
  intros (value & Hget & Hin).
  evaluate usersPosts. cbn [Js.get] in Hget.
  destruct (String.eqb_spec "users" t) as [<-|_].
  - injection Hget as <-. destruct Hin.
  - destruct (String.eqb_spec "posts" t) as [<-|_]; [|discriminate].
    injection Hget as <-. vm_compute in Hin. intuition congruence.
Qed.


(** C2.  On two tables that reference each other the ordering loop has no
    iteration cap and no cycle detection: whatever the number of turns
    allowed, it has not returned, and no error is raised. *)
Theorem cyclic_dependency_never_returns :
  forall fuel, dependencyOrder fuel cyclicTables = None.
Proof.
  apply (dependencyOrder_cycle cyclicTables "a").
  - vm_compute. repeat constructor; simpl; intuition discriminate.
  - apply t_trans with "b"; apply t_step; eexists; split;
      try (vm_compute; reflexivity); vm_compute; auto.
Qed.

(** ** The text of the SQL export *)

Lemma append_assoc (a b c : string) : ((a ++ b) ++ c = a ++ (b ++ c))%string.
Proof. induction a as [|x a IH]; simpl; [reflexivity | now rewrite IH]. Qed.

Lemma append_empty_r (a : string) : (a ++ EmptyString = a)%string.
Proof. induction a as [|x a IH]; simpl; [reflexivity | now rewrite IH]. Qed.

Lemma reservedKeyword_isReserved title :
  Js.arrayIncludes ModalSQL.reservedKeyword title = Rule.isReserved title.
Proof.
  unfold Rule.isReserved.
  destruct (in_dec string_dec title Rule.reservedWords) as [Hin|Hnin].
  - apply arrayIncludes_In. simpl in *. tauto.
  - destruct (Js.arrayIncludes ModalSQL.reservedKeyword title) eqn:E; auto.
    apply arrayIncludes_In in E. exfalso. apply Hnin. simpl in *. tauto.
Qed.

Lemma truthy_fkSet c : Js.truthy (Column.fk c) = Rule.fkSet c.
Proof.
  unfold Rule.fkSet. destruct (Column.fk c) as [[|x fk]|]; reflexivity.
Qed.

Lemma template_nth parts n :
  ModalSQL.template (nth_error parts n) = nth n parts "undefined".
Proof.
  revert n. induction parts as [|p parts IH]; intros [|n]; simpl; auto.
Qed.

(** One turn of the column loop appends the line of the rule. *)
Lemma columnCode_line arrLength code i c :
  ModalSQL.columnCode arrLength code (i, c)
  = (code ++ Rule.columnLine c (i =? arrLength - 1)%nat)%string.
Proof.
  unfold ModalSQL.columnCode, Rule.columnLine, Rule.identifier, Rule.dataType,
    Rule.referencesClause, Rule.defaultNowClause, Rule.requiredClause,
    Rule.primaryKeyClause, Rule.lineEnd, Rule.dateFamily,
    Rule.fkTable, Rule.fkColumn.
  rewrite reservedKeyword_isReserved, !truthy_fkSet, !template_nth.
  unfold Rule.fkSet.
  destruct (Column.fk c) as [fk|]; cbn [Js.coalesce negb andb];
    destruct (Rule.isReserved (Column.title c));
    destruct (String.eqb (Column.format c) "integer");
    destruct (Column.pk c);
    destruct (String.eqb (Column.format c) "date");
    destruct (Js.includes (Column.format c) "timestamp");
    destruct (Column.required c);
    destruct (String.eqb (Column.format c) "uuid");
    destruct (i =? arrLength - 1)%nat;
    try destruct (String.eqb fk EmptyString);
    cbn [negb andb orb];
    rewrite ?append_assoc, ?append_empty_r; reflexivity.
Qed.

Lemma columnCode_lines arr a code :
  fold_left (ModalSQL.columnCode (a + List.length arr))
            (combine (seq a (List.length arr)) arr) code
  = (code ++ Rule.columnLines arr)%string.
Proof.
  revert a code. induction arr as [|c arr IH]; intros a code.
  - simpl. now rewrite append_empty_r.
  - cbn [List.length seq combine fold_left]. rewrite columnCode_line.
    replace (a + S (List.length arr)) with (S a + List.length arr) by lia.
    rewrite IH, append_assoc. f_equal.
    destruct arr as [|c' arr].
    + change (Rule.columnLines [c]) with (Rule.columnLine c true).
      change (Rule.columnLines []) with EmptyString.
      replace (a =? S a + List.length (@nil Column.t) - 1)%nat with true
        by (symmetry; apply Nat.eqb_eq; simpl; lia).
      now rewrite append_empty_r.
    + change (Rule.columnLines (c :: c' :: arr))
        with (Rule.columnLine c false ++ Rule.columnLines (c' :: arr))%string.
      replace (a =? S a + List.length (c' :: arr) - 1)%nat with false
        by (symmetry; apply Nat.eqb_neq; simpl; lia).
      reflexivity.
Qed.

Lemma statements_cons tables id order :
  Rule.statements tables (id :: order)
  = match Js.get id tables with
    | Some table =>
        if Table.is_view table then Rule.statements tables order
        else (Rule.createTable id table ++ Rule.statements tables order)%string
    | None => Rule.statements tables order
    end.
Proof. reflexivity. Qed.

Lemma tableCode_statements tables order code :
  fold_left (ModalSQL.tableCode tables) order code
  = (code ++ Rule.statements tables order)%string.
Proof.
  revert code. induction order as [|id order IH]; intros code.
  - simpl. now rewrite append_empty_r.
  - cbn [fold_left]. rewrite IH, statements_cons. unfold ModalSQL.tableCode.
    destruct (Js.get id tables) as [value|]; auto.
    destruct (Table.is_view value); auto.
    rewrite (columnCode_lines (Table.columns value) 0).
    unfold Rule.createTable. now rewrite !append_assoc.
Qed.


(** ** Column normalisation *)

(** C9.  With both [type] and [format] supplied, the agent route takes
    [Column.type] from the input's [format] (and [Column.format] from its
    [type]), the legacy route takes [Column.type] from the input's [type];
    with only one of the two supplied, both routes set both fields to it;
    with none, the agent route sets both to ["text"], the legacy route to
    ["string"].  On both routes [required] and [pk] default to [false],
    and [default], [fk], [enumValues], [enumTypeName] and [comment] pass
    through. *)
Theorem normalise_column_type_format
    (title : string) (t f : string) (d : option JsValue)
    (r p : option bool) (fk : option string) (ev : option (list string))
    (etn c : option string) :
  let out ty fmt :=
    Column.mk title ty fmt d
      (match r with Some b => b | None => false end)
      (match p with Some b => b | None => false end) fk ev etn c in
  let input ty fmt := ColumnInput.mk title ty fmt d r p fk ev etn c in
  Agent.normaliseColumn (input (Some t) (Some f)) = out f t
  /\ Agent.normaliseColumn (input (Some t) None) = out t t
  /\ Agent.normaliseColumn (input None (Some f)) = out f f
  /\ Agent.normaliseColumn (input None None) = out "text" "text"
  /\ Legacy.normaliseColumn (input (Some t) (Some f)) = out t f
  /\ Legacy.normaliseColumn (input (Some t) None) = out t t
  /\ Legacy.normaliseColumn (input None (Some f)) = out f f
  /\ Legacy.normaliseColumn (input None None) = out "string" "string".
Proof.
  destruct r, p; repeat split.
Qed.

(** ** The agent tools *)

Lemma state_eta (st : Agent.State) :
  Agent.mkState (Agent.schemaState st) (Agent.operationCount st)
    (Agent.totalOperations st) (Agent.operationHistory st) (Agent.aborted st)
  = st.
Proof. now destruct st. Qed.

(** Every tool starts with the test of the abort signal. *)
Lemma execute_cancelled e call st :
  Agent.aborted st = true -> Agent.execute e call st = (Agent.cancelled, st).
Proof.
  intros H. destruct call; simpl;
    unfold Agent.listSchemas, Agent.listTables, Agent.getTableDetails,
      Agent.createTable, Agent.dropTable, Agent.renameTable, Agent.addColumn,
      Agent.dropColumn, Agent.alterColumn;
    now rewrite H.
Qed.

Lemma abort_aborted st : Agent.aborted st = true -> Agent.abort st = st.
Proof. intros H. unfold Agent.abort. rewrite <- H. apply state_eta. Qed.

Lemma run_app events events' st :
  Agent.run (events ++ events') st
  = (fst (Agent.run events st)
     ++ fst (Agent.run events' (snd (Agent.run events st))),
     snd (Agent.run events' (snd (Agent.run events st)))).
Proof.
  revert st. induction events as [|ev events IH]; intros st; simpl.
  - now destruct (Agent.run events' st).
  - destruct (Agent.step st ev) as [rs st1]. rewrite IH.
    destruct (Agent.run events st1) as [rs1 st2]. simpl.
    now rewrite app_assoc.
Qed.

Lemma run_aborted events st :
  Agent.aborted st = true ->
  snd (Agent.run events st) = st
  /\ Forall (fun r => r = Agent.cancelled) (fst (Agent.run events st)).
Proof.
  intros H. induction events as [|[e call|] events IH]; simpl.
  - split; constructor.
  - rewrite (execute_cancelled _ _ _ H).
    destruct (Agent.run events st) as [rs st']. simpl in *.
    destruct IH. split; auto.
  - rewrite (abort_aborted _ H).
    destruct (Agent.run events st) as [rs st']. simpl in *. exact IH.
Qed.

(** C5.  Whatever happened before, once the abort signal has fired every
    tool invocation returns [{ok: false, message: "Operation cancelled"}]
    and the request's variables stay what they were at the abort: the
    tables, their columns and the fields of the columns, the operation
    history and the counters. *)
Theorem cancellation_leaves_state (before after : list Agent.Event)
    (st : Agent.State) :
  let atAbort := Agent.abort (snd (Agent.run before st)) in
  let final := snd (Agent.run (before ++ Agent.Abort :: after) st) in
  final = atAbort
  /\ Agent.schemaState final = Agent.schemaState (snd (Agent.run before st))
  /\ Forall (fun r => r = Agent.cancelled) (fst (Agent.run after atAbort))
  /\ forall e call,
       Agent.execute e call final = (Agent.cancelled, final).
Proof.
  intros atAbort final.
  assert (Hab : Agent.aborted atAbort = true) by reflexivity.
  assert (Hfinal : final = atAbort).
  { unfold final. rewrite run_app. cbn [snd Agent.run Agent.step].
    fold atAbort.
    pose proof (proj1 (run_aborted after atAbort Hab)) as H.
    destruct (Agent.run after atAbort) as [rs st']. simpl in *. exact H. }
  repeat split.
  - exact Hfinal.
  - now rewrite Hfinal.
  - apply run_aborted. exact Hab.
  - intros e call. apply execute_cancelled. now rewrite Hfinal.
Qed.

Lemma existsb_title_absent (columns : list Column.t) title :
  (forall c, In c columns -> Column.title c <> title) ->
  existsb (fun c => String.eqb (Column.title c) title) columns = false.
Proof.
  intros H. destruct (existsb _ columns) eqn:E; auto.
  apply existsb_exists in E. destruct E as (c & Hin & Heq).
  apply String.eqb_eq in Heq. now apply H in Hin.
Qed.

Lemma normaliseColumn_title column :
  Column.title (Agent.normaliseColumn column) = ColumnInput.title column.
Proof. reflexivity. Qed.

(** The first [addColumn] of a title the table does not have. *)
Lemma addColumn_new e tableId column st table :
  Agent.aborted st = false ->
  Js.get tableId (Agent.schemaState st) = Some table ->
  (forall c, In c (Table.columns table) ->
             Column.title c <> ColumnInput.title column) ->
  let table' :=
    Table.mk (Table.title table) (Table.schema table) (Table.is_view table)
      (Table.columns table ++ [Agent.normaliseColumn column])
      (Table.position table) in
  Agent.ok (fst (Agent.addColumn e tableId column st)) = Some true
  /\ Agent.schemaState (snd (Agent.addColumn e tableId column st))
     = Js.replace tableId table' (Agent.schemaState st)
  /\ Agent.aborted (snd (Agent.addColumn e tableId column st)) = false.
Proof.
  intros Hab Hget Hnew table'. unfold Agent.addColumn.
  rewrite Hab. cbn [Agent.countOperation Agent.schemaState]. rewrite Hget.
  rewrite normaliseColumn_title, existsb_title_absent by assumption.
  cbn. rewrite Hab. auto.
Qed.

(** An [addColumn] of a title the table has. *)
Lemma addColumn_duplicate e tableId column st table :
  Agent.aborted st = false ->
  Js.get tableId (Agent.schemaState st) = Some table ->
  (exists c, In c (Table.columns table)
             /\ Column.title c = ColumnInput.title column) ->
  Agent.ok (fst (Agent.addColumn e tableId column st)) = Some false
  /\ Agent.schemaState (snd (Agent.addColumn e tableId column st))
     = Agent.schemaState st
  /\ Agent.operationHistory (snd (Agent.addColumn e tableId column st))
     = Agent.operationHistory st.
Proof.
  intros Hab Hget (c & Hin & Heq). unfold Agent.addColumn.
  rewrite Hab. cbn [Agent.countOperation Agent.schemaState]. rewrite Hget.
  rewrite normaliseColumn_title.
  replace (existsb _ (Table.columns table)) with true.
  - cbn. auto.
  - symmetry. apply existsb_exists. exists c. split; auto.
    now apply String.eqb_eq.
Qed.

(** A tool that names a table the state does not have. *)
Lemma addColumn_missing e tableId column st :
  Js.get tableId (Agent.schemaState st) = None ->
  Agent.ok (fst (Agent.addColumn e tableId column st)) = Some false
  /\ snd (Agent.addColumn e tableId column st) = st.
Proof.
  intros Hget. unfold Agent.addColumn.
  destruct (Agent.aborted st); [auto|]. now rewrite Hget.
Qed.


(** *** Dropping columns *)

Lemma filter_length_forallb {A : Type} (p : A -> bool) l :
  (List.length (filter p l) =? List.length l)%nat = forallb p l.
Proof.
  induction l as [|a l IH]; simpl; auto.
  destruct (p a); simpl; auto.
  apply Nat.eqb_neq. pose proof (filter_length_le p l). lia.
Qed.

Lemma filter_forallb {A : Type} (p : A -> bool) l :
  forallb p l = true -> filter p l = l.
Proof.
  induction l as [|a l IH]; simpl; auto.
  destruct (p a); simpl; [|discriminate]. intros H. now rewrite IH.
Qed.

Lemma keepOthers_true columnName c :
  keepOthers columnName c = true <-> Column.title c <> columnName.
Proof.
  unfold keepOthers. destruct (String.eqb_spec (Column.title c) columnName);
    simpl; split; congruence.
Qed.

Lemma dropColumn_effect e tableId columnName st table :
  Agent.aborted st = false ->
  Js.get tableId (Agent.schemaState st) = Some table ->
  let r := Agent.dropColumn e tableId columnName st in
  let kept := filter (keepOthers columnName) (Table.columns table) in
  Agent.schemaState (snd r)
  = Js.replace tableId
      (Table.mk (Table.title table) (Table.schema table)
                (Table.is_view table) kept (Table.position table))
      (Agent.schemaState st)
  /\ Agent.ok (fst r)
     = Some (negb (forallb (keepOthers columnName) (Table.columns table))).
Proof.
  intros Hab Hget r kept. unfold r, Agent.dropColumn.
  rewrite Hab. cbn [Agent.countOperation Agent.schemaState]. rewrite Hget.
  cbn [Agent.assignColumns Agent.withSchema Agent.schemaState Table.columns].
  fold (keepOthers columnName). fold kept.
  unfold kept. rewrite filter_length_forallb.
  destruct (forallb (keepOthers columnName) (Table.columns table)); cbn; auto.
Qed.

Lemma legacy_add_column st tableId column table :
  Js.get tableId (Legacy.schemaState st) = Some table ->
  Legacy.schemaState (Legacy.applyOperation st (Legacy.add_column tableId column))
  = Js.replace tableId
      (Legacy.withColumns table
         (Table.columns table ++ [Legacy.normaliseColumn column]))
      (Legacy.schemaState st)
  /\ Legacy.ok (Legacy.applyOperation st (Legacy.add_column tableId column))
     = Legacy.ok st.
Proof.
  intros Hget. unfold Legacy.applyOperation. rewrite Hget. cbn. auto.
Qed.

(** The legacy [add_column] applied twice with the same column. *)
Lemma legacy_add_column_twice tables tableId column table :
  Js.get tableId tables = Some table ->
  let st :=
    fold_left Legacy.applyOperation
      [Legacy.add_column tableId column; Legacy.add_column tableId column]
      (Legacy.mkState tables true []) in
  Legacy.ok st = true
  /\ Js.get tableId (Legacy.schemaState st)
     = Some (Legacy.withColumns table
               (Table.columns table
                ++ [Legacy.normaliseColumn column;
                    Legacy.normaliseColumn column])).
Proof.
  intros Hget. cbn [fold_left].
  set (st0 := Legacy.mkState tables true []).
  destruct (legacy_add_column st0 tableId column table Hget) as [Hs1 Hok1].
  set (st1 := Legacy.applyOperation st0 (Legacy.add_column tableId column))
    in *.
  set (table1 := Legacy.withColumns table
                   (Table.columns table ++ [Legacy.normaliseColumn column]))
    in *.
  assert (Hin : In tableId (Js.keys tables)) by (eapply get_some_keys; eauto).
  assert (Hget1 : Js.get tableId (Legacy.schemaState st1) = Some table1).
  { rewrite Hs1. now apply get_replace_same. }
  destruct (legacy_add_column st1 tableId column table1 Hget1) as [Hs2 Hok2].
  split; [now rewrite Hok2, Hok1|]. rewrite Hs2.
  rewrite get_replace_same by (eapply get_some_keys; eauto).
  unfold table1, Legacy.withColumns. cbn [Table.columns Table.title
    Table.schema Table.is_view Table.position].
  now rewrite <- app_assoc.
Qed.

(** C10.  [dropColumn] on a table of the state keeps exactly the columns
    whose title differs from [columnName]: every column of that title goes
    in one call.  It returns [ok: false] exactly when no column has that
    title, and the table is then unchanged.  The legacy [add_column] adds a
    column without looking for its title among the existing ones, so that
    applying it twice leaves two columns of the same title, which one
    [dropColumn] then removes together. *)
Theorem dropColumn_removes_every_match (e : Agent.Entropy) (st : Agent.State)
    (tableId columnName : string) (table : Table.t) :
  Agent.aborted st = false ->
  Js.get tableId (Agent.schemaState st) = Some table ->
  let r := Agent.dropColumn e tableId columnName st in
  let kept := filter (keepOthers columnName) (Table.columns table) in
  Js.get tableId (Agent.schemaState (snd r))
  = Some (Table.mk (Table.title table) (Table.schema table)
                   (Table.is_view table) kept (Table.position table))
  /\ (forall c, In c kept <->
                In c (Table.columns table) /\ Column.title c <> columnName)
  /\ (Agent.ok (fst r) = Some false <->
      forall c, In c (Table.columns table) -> Column.title c <> columnName)
  /\ (Agent.ok (fst r) = Some false ->
      Agent.schemaState (snd r) = Agent.schemaState st)
  /\ (forall column,
         let twice :=
           fold_left Legacy.applyOperation
             [Legacy.add_column tableId column;
              Legacy.add_column tableId column]
             (Legacy.mkState (Agent.schemaState st) true []) in
         let title := ColumnInput.title column in
         let r2 :=
           Agent.dropColumn e tableId title
             (Agent.withSchema st (Legacy.schemaState twice)) in
         Legacy.ok twice = true
         /\ Js.get tableId (Legacy.schemaState twice)
            = Some (Legacy.withColumns table
                      (Table.columns table
                       ++ [Legacy.normaliseColumn column;
                           Legacy.normaliseColumn column]))
         /\ Agent.ok (fst r2) = Some true
         /\ Js.get tableId (Agent.schemaState (snd r2))
            = Some (Legacy.withColumns table
                      (filter (keepOthers title) (Table.columns table)))).
Proof.
  intros Hab Hget r kept.
  destruct (dropColumn_effect e tableId columnName st table Hab Hget)
    as [Hs Hok]. fold r in Hs, Hok. fold kept in Hs.
  assert (Hin : In tableId (Js.keys (Agent.schemaState st)))
    by (eapply get_some_keys; eauto).
  split; [|split; [|split; [|split]]].
  - rewrite Hs. now apply get_replace_same.
  - intros c. unfold kept. rewrite filter_In, keepOthers_true. tauto.
  - rewrite Hok. split.
    + intros [= H]. apply negb_false_iff in H.
      rewrite forallb_forall in H. intros c Hc.
      now apply keepOthers_true, H.
    + intros H. f_equal. apply negb_false_iff, forallb_forall.
      intros c Hc. now apply keepOthers_true, H.
  - rewrite Hok, Hs. intros [= H]. apply negb_false_iff in H.
    unfold kept. rewrite (filter_forallb _ _ H).
    apply replace_same_value. rewrite Hget. now destruct table.
  - intros column twice title r2.
    destruct (legacy_add_column_twice _ tableId column table Hget)
      as [Hok2 Hget2]. fold twice in Hok2, Hget2.
    split; [exact Hok2|]. split; [exact Hget2|].
    destruct (dropColumn_effect e tableId title
                (Agent.withSchema st (Legacy.schemaState twice)) _ Hab Hget2)
      as [Hs3 Hok3]. fold r2 in Hs3, Hok3.
    assert (Hdrop : keepOthers title (Legacy.normaliseColumn column) = false).
    { unfold keepOthers, title. cbn. now rewrite String.eqb_refl. }
    split.
    + rewrite Hok3. f_equal. cbn [Legacy.withColumns Table.columns].
      rewrite forallb_app. cbn [forallb]. rewrite Hdrop.
      now rewrite andb_false_r.
    + rewrite Hs3. cbn [Agent.withSchema Agent.schemaState].
      rewrite get_replace_same by (eapply get_some_keys; eauto).
      cbn [Legacy.withColumns Table.columns Table.title Table.schema
           Table.is_view Table.position].
      rewrite filter_app. cbn [filter]. rewrite Hdrop.
      now rewrite app_nil_r.
Qed.

(** *** Renaming a table *)

Lemma renameTable_effect e fromTableId toTableId st source :
  Agent.aborted st = false ->
  Js.get fromTableId (Agent.schemaState st) = Some source ->
  let r := Agent.renameTable e fromTableId toTableId st in
  Agent.ok (fst r) = Some true
  /\ Agent.schemaState (snd r)
     = Js.set toTableId (renamed toTableId source)
         (Js.delete fromTableId (Agent.schemaState st)).
Proof.
  intros Hab Hget r. unfold r, Agent.renameTable.
  rewrite Hab. rewrite Hget. cbn. auto.
Qed.

Lemma renameTable_missing e fromTableId toTableId st :
  Js.get fromTableId (Agent.schemaState st) = None ->
  Agent.ok (fst (Agent.renameTable e fromTableId toTableId st)) = Some false
  /\ snd (Agent.renameTable e fromTableId toTableId st) = st.
Proof.
  intros Hget. unfold Agent.renameTable.
  destruct (Agent.aborted st); [auto|]. now rewrite Hget.
Qed.



(** ** The operation history *)

(** A tool invocation adds one record when it is a mutation that returns
    [ok: true], and none otherwise. *)
Lemma execute_history e call st :
  List.length (Agent.operationHistory (snd (Agent.execute e call st)))
  = List.length (Agent.operationHistory st)
    + (if isMutation call && succeeded (fst (Agent.execute e call st))
       then 1 else 0).
Proof.
  destruct call; cbn [Agent.execute isMutation andb];
    unfold Agent.listSchemas, Agent.listTables, Agent.getTableDetails,
      Agent.createTable, Agent.dropTable, Agent.renameTable, Agent.addColumn,
      Agent.dropColumn, Agent.alterColumn;
    (destruct (Agent.aborted st); [cbn; lia|]);
    cbn [Agent.countOperation Agent.schemaState];
    try (destruct (Js.get _ (Agent.schemaState st)) as [table|];
         [|cbn; lia]).
  - cbn. lia.
  - destruct (0 <? _)%nat; cbn; lia.
  - cbn. lia.
  - cbn. rewrite length_app. cbn. lia.
  - cbn. rewrite length_app. cbn. lia.
  - cbn. rewrite length_app. cbn. lia.
  - destruct (existsb _ _); cbn; rewrite ?length_app; cbn; lia.
  - cbn [Agent.assignColumns Table.columns].
    destruct (_ =? _)%nat; cbn; rewrite ?length_app; cbn; lia.
  - destruct (Js.findIndex _ _) as [i|]; [|cbn; lia].
    destruct (nth_error _ _) as [c|]; [|cbn; lia].
    cbn. rewrite ?length_app. cbn. lia.
Qed.

(** The tools keep the keys of the schema distinct. *)
Lemma execute_nodup e call st :
  NoDup (Js.keys (Agent.schemaState st)) ->
  NoDup (Js.keys (Agent.schemaState (snd (Agent.execute e call st)))).
Proof.
  intros Hnd.
  destruct call; cbn [Agent.execute];
    unfold Agent.listSchemas, Agent.listTables, Agent.getTableDetails,
      Agent.createTable, Agent.dropTable, Agent.renameTable, Agent.addColumn,
      Agent.dropColumn, Agent.alterColumn;
    (destruct (Agent.aborted st); [exact Hnd|]);
    cbn [Agent.countOperation Agent.schemaState];
    try (destruct (Js.get _ (Agent.schemaState st)) as [table|];
         [|exact Hnd]);
    cbn [fst snd Agent.recordOperation Agent.withSchema Agent.schemaState
         Agent.assignColumns Table.columns].
  - exact Hnd.
  - now destruct (0 <? _)%nat.
  - exact Hnd.
  - now apply nodup_set.
  - now apply nodup_delete.
  - now apply nodup_set, nodup_delete.
  - destruct (existsb _ _); [exact Hnd|].
    cbn [snd Agent.recordOperation Agent.schemaState].
    now apply nodup_replace.
  - destruct (_ =? _)%nat; cbn [snd Agent.recordOperation Agent.schemaState];
      now apply nodup_replace.
  - destruct (Js.findIndex _ _) as [i|]; [|exact Hnd].
    destruct (nth_error _ _) as [c|]; [|exact Hnd].
    cbn [snd Agent.recordOperation Agent.schemaState Agent.withSchema
         Agent.assignColumns].
    now apply nodup_replace.
Qed.

Lemma run_nodup events st :
  NoDup (Js.keys (Agent.schemaState st)) ->
  NoDup (Js.keys (Agent.schemaState (snd (Agent.run events st)))).
Proof.
  revert st. induction events as [|[e call|] events IH]; intros st Hnd; auto.
  - cbn [Agent.run Agent.step].
    pose proof (execute_nodup e call st Hnd) as H1.
    destruct (Agent.execute e call st) as [r st1].
    specialize (IH st1 H1). now destruct (Agent.run events st1).
  - cbn [Agent.run Agent.step].
    specialize (IH (Agent.abort st) Hnd).
    now destruct (Agent.run events (Agent.abort st)).
Qed.

(** Every table state produced by the tools has distinct keys. *)
Lemma produced_nodup tables : produced tables -> NoDup (Js.keys tables).
Proof.
  intros [events <-]. apply run_nodup. constructor.
Qed.

Lemma run_history events st :
  List.length (Agent.operationHistory (snd (Agent.run events st)))
  = List.length (Agent.operationHistory st) + successfulMutations events st.
Proof.
  revert st. induction events as [|[e call|] events IH]; intros st.
  - simpl. lia.
  - cbn [Agent.run Agent.step successfulMutations].
    pose proof (execute_history e call st) as H.
    destruct (Agent.execute e call st) as [r st1]. cbn [fst snd] in H.
    specialize (IH st1). destruct (Agent.run events st1) as [rs st2].
    cbn [snd] in *. lia.
  - cbn [Agent.run Agent.step successfulMutations].
    specialize (IH (Agent.abort st)).
    destruct (Agent.run events (Agent.abort st)) as [rs st2].
    cbn [snd] in *. exact IH.
Qed.

(** *** Undoing the mutations other than [renameTable] *)

Lemma cloneColumn_id c : cloneColumn c = c.
Proof.
  destruct c as [? ? ? ? ? ? ? ev ? ?]. unfold cloneColumn. simpl.
  destruct ev as [l|]; simpl; [|reflexivity]. now rewrite map_id.
Qed.

Lemma structuredClone_id table : structuredClone table = table.
Proof.
  destruct table as [? ? ? columns [x y]]. unfold structuredClone. simpl.
  f_equal. rewrite <- (map_id columns) at 2.
  apply map_ext. apply cloneColumn_id.
Qed.

Lemma cloneTable_id table : cloneTable table = table.
Proof. destruct table; simpl; [now rewrite structuredClone_id | reflexivity]. Qed.

Lemma get_delete (o : TableState) k id :
  Js.get id (Js.delete k o)
  = if String.eqb k id then None else Js.get id o.
Proof.
  destruct (String.eqb_spec k id) as [<-|Hne].
  - apply get_delete_same.
  - apply get_delete_other. congruence.
Qed.

Lemma applyBefore_sameEntries a b record :
  sameEntries a b -> sameEntries (applyBefore a record) (applyBefore b record).
Proof.
  intros H id. unfold applyBefore.
  destruct (Agent.before record); [rewrite !get_set | rewrite !get_delete];
    now rewrite H.
Qed.

Lemma undoAll_sameEntries history a b :
  sameEntries a b -> sameEntries (undoAll history a) (undoAll history b).
Proof.
  unfold undoAll. revert a b.
  induction (rev history) as [|r l IH]; intros a b H; simpl; auto.
  apply IH. now apply applyBefore_sameEntries.
Qed.

Lemma undoAll_app history history' tables :
  undoAll (history ++ history') tables
  = undoAll history (undoAll history' tables).
Proof. unfold undoAll. now rewrite rev_app_distr, fold_left_app. Qed.

(** Putting [before] back under [tableId] undoes an assignment to, or a
    deletion of, the entry [tableId]. *)
Lemma undo_entry (tables after : TableState) tableId before :
  Js.get tableId tables = before ->
  (forall id, id <> tableId -> Js.get id after = Js.get id tables) ->
  sameEntries
    (match before with
     | Some table => Js.set tableId table after
     | None => Js.delete tableId after
     end)
    tables.
Proof.
  intros Hb Hother id. destruct before as [table|].
  - rewrite get_set. destruct (String.eqb_spec tableId id) as [<-|Hne]; auto.
  - rewrite get_delete. destruct (String.eqb_spec tableId id) as [<-|Hne]; auto.
Qed.

(** A successful mutation other than [renameTable] adds one record whose
    [before] value, put back, restores the entries of the schema; any other
    invocation adds no record and leaves the schema. *)
Lemma execute_undo e call st :
  (forall a b, call <> Agent.RenameTable a b) ->
  exists records,
    Agent.operationHistory (snd (Agent.execute e call st))
    = Agent.operationHistory st ++ records
    /\ sameEntries
         (undoAll records (Agent.schemaState (snd (Agent.execute e call st))))
         (Agent.schemaState st).
Proof.
  intros Hrename.
  assert (Hnone : forall st' : Agent.State,
             Agent.operationHistory st' = Agent.operationHistory st ->
             Agent.schemaState st' = Agent.schemaState st ->
             exists records,
               Agent.operationHistory st'
               = Agent.operationHistory st ++ records
               /\ sameEntries (undoAll records (Agent.schemaState st'))
                              (Agent.schemaState st)).
  { intros st' H1 H2. exists []. rewrite app_nil_r, H2. split; auto.
    intros id. reflexivity. }
  assert (Hone : forall type tableId before after description tables,
             Js.get tableId (Agent.schemaState st) = before ->
             (forall id, id <> tableId ->
                         Js.get id tables = Js.get id (Agent.schemaState st)) ->
             exists records,
               Agent.operationHistory st
               ++ [Agent.mkRecord (Agent.generateOperationId e) type tableId
                     before after (Agent.now e) description]
               = Agent.operationHistory st ++ records
               /\ sameEntries (undoAll records tables) (Agent.schemaState st)).
  { intros type tableId before after description tables Hb Hother.
    eexists. split; [reflexivity|].
    unfold undoAll, applyBefore. cbn [rev app fold_left Agent.before
      Agent.tableId].
    now apply undo_entry. }
  destruct call; cbn [Agent.execute];
    unfold Agent.listSchemas, Agent.listTables, Agent.getTableDetails,
      Agent.createTable, Agent.dropTable, Agent.renameTable, Agent.addColumn,
      Agent.dropColumn, Agent.alterColumn;
    (destruct (Agent.aborted st); [now apply Hnone|]);
    cbn [Agent.countOperation Agent.schemaState];
    try (destruct (Js.get _ (Agent.schemaState st)) as [table|] eqn:Hget;
         [|now apply Hnone]);
    cbn [fst snd Agent.recordOperation Agent.withSchema Agent.schemaState
         Agent.operationHistory Agent.assignColumns Table.columns];
    rewrite ?cloneTable_id.
  - now apply Hnone.
  - destruct (0 <? _)%nat; now apply Hnone.
  - now apply Hnone.
  - apply Hone; auto. intros id Hne. now apply get_set_other.
  - apply Hone; auto. intros id Hne. now apply get_delete_other.
  - exfalso. eapply Hrename. reflexivity.
  - destruct (existsb _ _); [now apply Hnone|].
    cbn [fst snd Agent.recordOperation Agent.withSchema Agent.schemaState
         Agent.operationHistory Agent.assignColumns Table.columns].
    rewrite ?cloneTable_id.
    apply Hone; auto. intros id Hne. now apply get_replace_other.
  - rewrite filter_length_forallb.
    destruct (forallb _ _) eqn:Hall.
    + apply Hnone; auto. cbn [snd Agent.schemaState].
      rewrite (filter_forallb _ _ Hall).
      apply replace_same_value. rewrite Hget. now destruct table.
    + cbn [fst snd Agent.recordOperation Agent.withSchema Agent.schemaState
           Agent.operationHistory Agent.assignColumns Table.columns].
      rewrite ?cloneTable_id.
      apply Hone; auto. intros id Hne. now apply get_replace_other.
  - destruct (Js.findIndex _ _) as [i|]; [|now apply Hnone].
    destruct (nth_error _ _) as [c|]; [|now apply Hnone].
    cbn [fst snd Agent.recordOperation Agent.withSchema Agent.schemaState
         Agent.operationHistory Agent.assignColumns Table.columns].
    rewrite ?cloneTable_id.
    apply Hone; auto. intros id Hne. now apply get_replace_other.
Qed.

(** The [before] values of the records of a request without [renameTable],
    applied in reverse order, restore the entries the request started on. *)
Lemma run_undo events st :
  renameFree events ->
  exists records,
    Agent.operationHistory (snd (Agent.run events st))
    = Agent.operationHistory st ++ records
    /\ List.length records = successfulMutations events st
    /\ sameEntries
         (undoAll records (Agent.schemaState (snd (Agent.run events st))))
         (Agent.schemaState st).
Proof.
  revert st. induction events as [|[e call|] events IH]; intros st Hfree.
  - exists []. simpl. rewrite app_nil_r. repeat split; auto.
  - inversion Hfree as [|? ? Hcall Hrest]; subst.
    cbn [Agent.run Agent.step successfulMutations].
    destruct (execute_undo e call st) as (rs1 & Hh1 & Hu1).
    { intros a b ->. exact Hcall. }
    pose proof (execute_history e call st) as Hlen.
    destruct (Agent.execute e call st) as [r st1]. cbn [fst snd] in *.
    destruct (IH st1 Hrest) as (rs2 & Hh2 & Hl2 & Hu2).
    destruct (Agent.run events st1) as [rs st2]. cbn [snd] in *.
    exists (rs1 ++ rs2). repeat split.
    + now rewrite Hh2, Hh1, app_assoc.
    + rewrite Hh1, length_app in Hlen. rewrite length_app. lia.
    + rewrite undoAll_app. intros id.
      rewrite (undoAll_sameEntries rs1 _ _ Hu2). apply Hu1.
  - inversion Hfree as [|? ? _ Hrest]; subst.
    cbn [Agent.run Agent.step successfulMutations].
    destruct (IH (Agent.abort st) Hrest) as (rs2 & Hh2 & Hl2 & Hu2).
    destruct (Agent.run events (Agent.abort st)) as [rs st2]. cbn [snd] in *.
    exists rs2. repeat split; auto.
Qed.

(** C3.  The record of a [renameTable] carries the new identifier as its
    [tableId] and the table of the old identifier as [before]; neither the
    old identifier nor the entry that the new identifier replaced is kept.
    Two requests that start on different schemas end, after the same
    successful rename, with the same schema and the same one-record
    history, so that the schema before the rename cannot be rebuilt from
    the history; applying the [before] value puts the old table under the
    new identifier. *)
Theorem rename_record_cannot_undo :
  let s1 := Agent.start (Some (twoTables "title")) in
  let s2 := Agent.start (Some (twoTables "name")) in
  let r1 := Agent.renameTable entropy0 "a" "b" s1 in
  let r2 := Agent.renameTable entropy0 "a" "b" s2 in
  let r3 :=
    Agent.renameTable entropy0 "users" "app_users"
                      (Agent.start (Some usersPosts)) in
  Agent.ok (fst r1) = Some true
  /\ Agent.ok (fst r2) = Some true
  /\ Agent.schemaState s1 <> Agent.schemaState s2
  /\ snd r1 = snd r2
  /\ List.length (Agent.operationHistory (snd r1)) = 1
  /\ undoAll (Agent.operationHistory (snd r1)) (Agent.schemaState (snd r1))
     <> Agent.schemaState s1
  /\ Agent.ok (fst r3) = Some true
  /\ Js.keys (undoAll (Agent.operationHistory (snd r3))
                      (Agent.schemaState (snd r3)))
     = ["posts"; "app_users"].
Proof.
  repeat split; try reflexivity; vm_compute; discriminate.
Qed.

(** ** Generated SQL and the round trip *)

Lemma whileKeys_nil fuel deps output :
  whileKeys fuel deps [] output = Some output.
Proof. now destruct fuel. Qed.

Lemma whileKeys_more_fuel deps fuel keys output result :
  whileKeys fuel deps keys output = Some result ->
  forall fuel', fuel <= fuel' ->
    whileKeys fuel' deps keys output = Some result.
Proof.
  revert keys output. induction fuel as [|fuel IH];
    intros [|k keys] output H fuel' Hle.
  - rewrite whileKeys_nil. simpl in H. exact H.
  - discriminate.
  - rewrite whileKeys_nil. simpl in H. exact H.
  - destruct fuel' as [|fuel']; [lia|]. simpl in *.
    destruct (forIn deps (k :: keys) output) as [keys' output'].
    apply IH; [assumption | lia].
Qed.

(** The text does not depend on the number of turns allowed. *)
Lemma generateSchemaSQL_fuel fuel fuel' tables enums enums' text text' :
  generateSchemaSQL fuel tables enums = Some text ->
  generateSchemaSQL fuel' tables enums' = Some text' ->
  text = text'.
Proof.
  unfold generateSchemaSQL, ModalSQL.exportedCode, dependencyOrder.
  destruct (whileKeys fuel _ _ _) as [o|] eqn:E; [|discriminate].
  destruct (whileKeys fuel' _ _ _) as [o'|] eqn:E'; [|discriminate].
  apply whileKeys_more_fuel with (fuel' := Nat.max fuel fuel') in E;
    [|lia].
  apply whileKeys_more_fuel with (fuel' := Nat.max fuel fuel') in E';
    [|lia].
  intros [= <-] [= <-]. congruence.
Qed.

Lemma get_erasePositions tables id :
  Js.get id (erasePositions tables)
  = option_map erasePosition (Js.get id tables).
Proof.
  induction tables as [|[k v] tables IH]; simpl; auto.
  destruct (String.eqb k id); auto.
Qed.

Lemma dependencies_fold_erase (tables : TableState) acc :
  fold_left
    (fun deps (entry : string * Table.t) =>
       Js.set (fst entry) (dependenciesOf (fst entry) (snd entry)) deps)
    (erasePositions tables) acc
  = fold_left
      (fun deps (entry : string * Table.t) =>
         Js.set (fst entry) (dependenciesOf (fst entry) (snd entry)) deps)
      tables acc.
Proof.
  revert acc. induction tables as [|[k v] tables IH]; intros acc; simpl; auto.
Qed.

Lemma tableCode_erase tables code id :
  ModalSQL.tableCode (erasePositions tables) code id
  = ModalSQL.tableCode tables code id.
Proof.
  unfold ModalSQL.tableCode. rewrite get_erasePositions.
  now destruct (Js.get id tables).
Qed.

Lemma exportedCode_erase fuel tables :
  ModalSQL.exportedCode fuel (erasePositions tables)
  = ModalSQL.exportedCode fuel tables.
Proof.
  unfold ModalSQL.exportedCode, dependencyOrder, dependencies.
  rewrite dependencies_fold_erase.
  destruct (whileKeys fuel _ _ _) as [output|]; auto.
  f_equal. generalize EmptyString.
  induction output as [|id output IH]; intros code; simpl; auto.
  now rewrite tableCode_erase, IH.
Qed.

Lemma equalIgnoringPosition_sym a b :
  equalIgnoringPosition a b -> equalIgnoringPosition b a.
Proof. intros H id. symmetry. apply H. Qed.

Lemma equalIgnoringPosition_trans a b c :
  equalIgnoringPosition a b -> equalIgnoringPosition b c ->
  equalIgnoringPosition a c.
Proof. intros H1 H2 id. now rewrite H1. Qed.

(** Whatever the parser, two states on which the round trip holds and
    whose texts are the same are equal up to positions. *)
Lemma round_trips_same_text parse fuel1 fuel2 (t1 t2 : TableState) text :
  generateSchemaSQL fuel1 t1 [] = Some text ->
  generateSchemaSQL fuel2 t2 [] = Some text ->
  roundTrip parse t1 -> roundTrip parse t2 ->
  equalIgnoringPosition t1 t2.
Proof.
  intros H1 H2 (f1 & x1 & G1 & E1) (f2 & x2 & G2 & E2).
  rewrite <- (generateSchemaSQL_fuel _ _ _ _ _ _ _ H1 G1) in E1.
  rewrite <- (generateSchemaSQL_fuel _ _ _ _ _ _ _ H2 G2) in E2.
  eapply equalIgnoringPosition_trans; [|exact E2].
  now apply equalIgnoringPosition_sym.
Qed.




(** ** The theorems at concrete inputs *)



Lemma dropColumn_removes_every_match_witness :
  let column := columnInput "email" (Some "text") None None None in
  let twice :=
    fold_left Legacy.applyOperation
      [Legacy.add_column "users" column; Legacy.add_column "users" column]
      (Legacy.mkState usersPosts true []) in
  let r2 :=
    Agent.dropColumn entropy0 "users" "email"
      (Agent.withSchema (running usersPosts) (Legacy.schemaState twice)) in
  option_map (fun t => map Column.title (Table.columns t))
             (Js.get "users" (Legacy.schemaState twice))
  = Some ["id"; "email"; "email"; "email"]
  /\ Agent.ok (fst r2) = Some true
  /\ option_map (fun t => map Column.title (Table.columns t))
                (Js.get "users" (Agent.schemaState (snd r2)))
     = Some ["id"].
Proof.
  intros column twice r2.
  destruct (Js.get "users" usersPosts) as [table|] eqn:Hget;
    [|vm_compute in Hget; discriminate].
  destruct (dropColumn_removes_every_match entropy0 (running usersPosts)
              "users" "email" table eq_refl Hget)
    as (_ & _ & _ & _ & Hlegacy).
  destruct (Hlegacy column) as (_ & Htwice & Hok & Hafter).
  change (Agent.schemaState (running usersPosts)) with usersPosts in *.
  change (ColumnInput.title column) with "email" in *.
  fold twice in Htwice. fold twice r2 in Hok, Hafter.
  vm_compute in Hget. injection Hget as <-.
  rewrite Htwice, Hafter. repeat split; auto.
Defined.

(** * Further properties of the routes and of the exports *)

(** ** Table identifiers *)

Lemma split_not_nil sep s : Js.split sep s <> [].
Proof.
  destruct s as [|c s]; simpl; [discriminate|].
  destruct (Ascii.eqb c sep); [discriminate|].
  destruct (Js.split sep s); discriminate.
Qed.

Lemma join_split sep s :
  Js.join (String sep EmptyString) (Js.split sep s) = s.
Proof.
  induction s as [|c s IH]; [reflexivity|]. simpl.
  destruct (Ascii.eqb_spec c sep) as [->|Hne].
  - pose proof (split_not_nil sep s) as Hnil.
    destruct (Js.split sep s) as [|p r]; [congruence|].
    cbn [Js.join]. cbn [Js.join] in IH.
    destruct r; simpl in *; now rewrite IH.
  - pose proof (split_not_nil sep s) as Hnil.
    destruct (Js.split sep s) as [|p r]; [congruence|].
    cbn [Js.join] in *. destruct r; simpl in *; now rewrite <- IH.
Qed.

Lemma join_snoc sep parts p :
  parts <> [] ->
  Js.join sep (parts ++ [p]) = (Js.join sep parts ++ sep ++ p)%string.
Proof.
  induction parts as [|q parts IH]; [congruence|]. intros _.
  destruct parts as [|q' parts]; [reflexivity|].
  change (Js.join sep ((q :: q' :: parts) ++ [p]))
    with (q ++ sep ++ Js.join sep ((q' :: parts) ++ [p]))%string.
  rewrite IH by discriminate.
  change (Js.join sep (q :: q' :: parts))
    with (q ++ sep ++ Js.join sep (q' :: parts))%string.
  now rewrite !append_assoc.
Qed.

Lemma prefix_char c s :
  String.prefix (String c EmptyString) s
  = match s with
    | EmptyString => false
    | String x _ => Ascii.eqb c x
    end.
Proof.
  destruct s as [|x s]; [reflexivity|]. simpl.
  destruct (ascii_dec c x) as [->|Hne].
  - rewrite Ascii.eqb_refl. now destruct s.
  - symmetry. now apply Ascii.eqb_neq.
Qed.

Lemma includes_cons x s sub :
  Js.includes (String x s) sub
  = if String.prefix sub (String x s) then true else Js.includes s sub.
Proof. reflexivity. Qed.

(** A string holds the character [c]. *)
Lemma includes_char s c :
  Js.includes s (String c EmptyString) = true
  <-> exists a b, s = (a ++ String c b)%string.
Proof.
  induction s as [|x s IH].
  - simpl. split; [discriminate|]. intros (a & b & H). now destruct a.
  - rewrite includes_cons, prefix_char.
    destruct (Ascii.eqb_spec c x) as [->|Hne].
    + split; [intros _; now exists EmptyString, s | reflexivity].
    + rewrite IH. split.
      * intros (a & b & ->). exists (String x a), b. reflexivity.
      * intros (a & b & H). destruct a as [|y a]; simpl in H.
        -- injection H as H1 H2. congruence.
        -- injection H as _ H. eauto.
Qed.

Lemma split_parts_clean sep s :
  Forall (fun p => Js.includes p (String sep EmptyString) = false)
         (Js.split sep s).
Proof.
  induction s as [|c s IH]; simpl.
  - constructor; [reflexivity | constructor].
  - destruct (Ascii.eqb_spec c sep) as [->|Hne].
    + constructor; [reflexivity | assumption].
    + destruct (Js.split sep s) as [|p r].
      * constructor; [|constructor].
        rewrite includes_cons, prefix_char.
        destruct (Ascii.eqb_spec sep c); [congruence | reflexivity].
      * inversion IH as [|? ? Hp Hr]; subst. constructor; auto.
        rewrite includes_cons, prefix_char.
        destruct (Ascii.eqb_spec sep c); [congruence | exact Hp].
Qed.

Lemma split_single sep s :
  List.length (Js.split sep s) <= 1 <->
  Js.includes s (String sep EmptyString) = false.
Proof.
  induction s as [|c s IH].
  - simpl. split; auto.
  - rewrite includes_cons, prefix_char. cbn [Js.split].
    pose proof (split_not_nil sep s) as Hnil.
    destruct (Ascii.eqb_spec c sep) as [->|Hne].
    + rewrite Ascii.eqb_refl.
      destruct (Js.split sep s); [congruence|]. simpl.
      split; [lia | discriminate].
    + destruct (Ascii.eqb_spec sep c); [congruence|].
      destruct (Js.split sep s) as [|p r]; [congruence|].
      simpl in *. exact IH.
Qed.

(** X1.  [parseTableIdentifier] cuts an identifier at its last dot: the
    name holds no dot; an identifier without a dot has no schema and is its
    own name; otherwise the schema, a dot and the name give the identifier
    back. *)
Theorem parseTableIdentifier_recomposes (tableId : string) :
  let p := parseTableIdentifier tableId in
  Js.includes (Identifier.name p) "." = false
  /\ match Identifier.schema p with
     | Some schema =>
         Js.includes tableId "." = true
         /\ (schema ++ "." ++ Identifier.name p)%string = tableId
     | None =>
         Js.includes tableId "." = false /\ Identifier.name p = tableId
     end.
Proof.
  unfold parseTableIdentifier.
  pose proof (split_not_nil Js.dot tableId) as Hnil.
  pose proof (split_parts_clean Js.dot tableId) as Hclean.
  pose proof (join_split Js.dot tableId) as Hjoin.
  pose proof (split_single Js.dot tableId) as Hsingle.
  change (String Js.dot EmptyString) with "." in *.
  destruct (Nat.ltb_spec 1 (List.length (Js.split Js.dot tableId)))
    as [Hlong|Hshort]; cbn [Identifier.name Identifier.schema].
  - set (parts := Js.split Js.dot tableId) in *.
    rewrite (app_removelast_last EmptyString Hnil) in Hjoin.
    assert (Hfront : removelast parts <> []).
    { intros E. pose proof (app_removelast_last EmptyString Hnil) as H.
      rewrite E in H. rewrite H in Hlong. simpl in Hlong. lia. }
    rewrite join_snoc in Hjoin by assumption.
    repeat split; auto.
    + rewrite Forall_forall in Hclean. apply Hclean.
      rewrite (app_removelast_last EmptyString Hnil) at 2.
      apply in_or_app. right. now left.
    + destruct (Js.includes tableId "."); auto.
      assert (List.length parts <= 1) by now apply Hsingle.
      lia.
  - assert (E : Js.includes tableId "." = false) by (apply Hsingle; lia).
    auto.
Qed.

(** ** Creating and dropping tables *)



Lemma delete_length {V : Type} (o : Js.obj V) k v :
  NoDup (Js.keys o) -> Js.get k o = Some v ->
  S (List.length (Js.delete k o)) = List.length o.
Proof.
  induction o as [|[k0 v0] o IH]; simpl; [discriminate|].
  intros Hnd. inversion Hnd as [|? ? Hnin Hnd']; subst.
  destruct (String.eqb_spec k0 k) as [->|Hne].
  - intros _. f_equal. f_equal. apply delete_absent. now apply get_none_keys.
  - intros H. simpl. f_equal. now apply IH.
Qed.



(** ** Altering a column *)

Lemma findIndex_first {A : Type} (p : A -> bool) arr i :
  Js.findIndex p arr = Some i ->
  (exists a, nth_error arr i = Some a /\ p a = true)
  /\ forall j b, j < i -> nth_error arr j = Some b -> p b = false.
Proof.
  revert i. induction arr as [|a arr IH]; simpl; [discriminate|].
  intros i. destruct (p a) eqn:E.
  - intros [= <-]. split; [now exists a|]. intros j b Hj. lia.
  - destruct (Js.findIndex p arr) as [k|]; simpl; [|discriminate].
    intros [= <-]. destruct (IH k eq_refl) as [Hk Hbefore]. split; auto.
    intros [|j] b Hj; simpl.
    + now intros [= <-].
    + apply Hbefore. lia.
Qed.

Lemma findIndex_none {A : Type} (p : A -> bool) arr :
  Js.findIndex p arr = None <-> forall a, In a arr -> p a = false.
Proof.
  induction arr as [|a arr IH]; simpl.
  - split; [tauto | reflexivity].
  - destruct (p a) eqn:E.
    + split; [discriminate|]. intros H. specialize (H a (or_introl eq_refl)).
      congruence.
    + destruct (Js.findIndex p arr) as [k|]; simpl.
      * split; [discriminate|]. intros H.
        assert (Hk : Some k = None) by (apply IH; auto).
        discriminate.
      * split; [|reflexivity]. intros _ b [<-|Hb]; auto.
        now apply IH.
Qed.

Lemma setAt_length {A : Type} i (v : A) arr :
  List.length (Js.setAt i v arr) = List.length arr.
Proof.
  revert i. induction arr as [|a arr IH]; intros [|i]; simpl; auto.
Qed.

Lemma setAt_same {A : Type} i (v a : A) arr :
  nth_error arr i = Some a -> nth_error (Js.setAt i v arr) i = Some v.
Proof.
  revert i. induction arr as [|b arr IH]; intros [|i]; simpl;
    try discriminate; auto.
Qed.

Lemma setAt_other {A : Type} i j (v : A) arr :
  j <> i -> nth_error (Js.setAt i v arr) j = nth_error arr j.
Proof.
  revert i j. induction arr as [|b arr IH]; intros [|i] [|j] H; simpl; auto.
  congruence.
Qed.

Lemma alterColumn_effect e tableId columnName patch st table i c :
  Agent.aborted st = false ->
  Js.get tableId (Agent.schemaState st) = Some table ->
  Js.findIndex (fun c => String.eqb (Column.title c) columnName)
               (Table.columns table) = Some i ->
  nth_error (Table.columns table) i = Some c ->
  let r := Agent.alterColumn e tableId columnName patch st in
  Agent.ok (fst r) = Some true
  /\ Agent.schemaState (snd r)
     = Js.replace tableId
         (Table.mk (Table.title table) (Table.schema table)
            (Table.is_view table)
            (Js.setAt i (alteredColumn c patch) (Table.columns table))
            (Table.position table))
         (Agent.schemaState st)
  /\ List.length (Agent.operationHistory (snd r))
     = S (List.length (Agent.operationHistory st)).
Proof.
  intros Hab Hget Hidx Hnth r. unfold r, Agent.alterColumn.
  rewrite Hab. cbn [Agent.countOperation Agent.schemaState].
  rewrite Hget, Hidx. cbn [Js.coalesce]. rewrite Hnth.
  cbn [fst snd Agent.ok Agent.assignColumns Agent.recordOperation
       Agent.withSchema Agent.schemaState Agent.operationHistory].
  repeat split. rewrite length_app. simpl. lia.
Qed.

Lemma alterColumn_missing e tableId columnName patch st table :
  Agent.aborted st = false ->
  Js.get tableId (Agent.schemaState st) = Some table ->
  (forall c, In c (Table.columns table) -> Column.title c <> columnName) ->
  let r := Agent.alterColumn e tableId columnName patch st in
  Agent.ok (fst r) = Some false
  /\ Agent.schemaState (snd r) = Agent.schemaState st
  /\ Agent.operationHistory (snd r) = Agent.operationHistory st
  /\ Agent.operationCount (snd r) = S (Agent.operationCount st).
Proof.
  intros Hab Hget Hnone r. unfold r, Agent.alterColumn.
  rewrite Hab. cbn [Agent.countOperation Agent.schemaState]. rewrite Hget.
  replace (Js.findIndex _ (Table.columns table)) with (@None nat).
  - cbn. auto.
  - symmetry. apply findIndex_none. intros c Hc.
    apply String.eqb_neq. auto.
Qed.

(** X4.  [alterColumn] on a table of the state changes the first column
    whose title is [columnName], and only that one: the table keeps its
    number of columns, every other column, its title, schema and position,
    and the other tables are left as they were.  When no column has that
    title it returns [ok: false], leaves the schema and the history, and
    has counted one more operation. *)
Theorem alterColumn_changes_first_match (e : Agent.Entropy) (st : Agent.State)
    (tableId columnName : string) (patch : ColumnPatch.t) (table : Table.t) :
  Agent.aborted st = false ->
  Js.get tableId (Agent.schemaState st) = Some table ->
  let r := Agent.alterColumn e tableId columnName patch st in
  let after := Agent.schemaState (snd r) in
  match
    Js.findIndex (fun c => String.eqb (Column.title c) columnName)
                 (Table.columns table)
  with
  | Some i =>
      exists c table',
        nth_error (Table.columns table) i = Some c
        /\ Column.title c = columnName
        /\ (forall j b, j < i -> nth_error (Table.columns table) j = Some b ->
                        Column.title b <> columnName)
        /\ Agent.ok (fst r) = Some true
        /\ Js.get tableId after = Some table'
        /\ List.length (Table.columns table')
           = List.length (Table.columns table)
        /\ nth_error (Table.columns table') i = Some (alteredColumn c patch)
        /\ (forall j, j <> i ->
                      nth_error (Table.columns table') j
                      = nth_error (Table.columns table) j)
        /\ Table.title table' = Table.title table
        /\ Table.schema table' = Table.schema table
        /\ Table.position table' = Table.position table
        /\ (forall id, id <> tableId ->
                       Js.get id after = Js.get id (Agent.schemaState st))
  | None =>
      Agent.ok (fst r) = Some false
      /\ after = Agent.schemaState st
      /\ Agent.operationHistory (snd r) = Agent.operationHistory st
      /\ Agent.operationCount (snd r) = S (Agent.operationCount st)
  end.
Proof.
  intros Hab Hget r after.
  destruct (Js.findIndex _ (Table.columns table)) as [i|] eqn:Hidx.
  - destruct (findIndex_first _ _ _ Hidx) as [(c & Hnth & Hc) Hbefore].
    destruct (alterColumn_effect e tableId columnName patch st table i c
                Hab Hget Hidx Hnth) as (Hok & Hs & _).
    fold r in Hok, Hs. fold after in Hs.
    exists c. eexists. split; [exact Hnth|].
    split; [now apply String.eqb_eq|].
    split; [intros j b Hj Hb; apply String.eqb_neq; eauto|].
    split; [exact Hok|].
    split; [rewrite Hs; apply get_replace_same; eapply get_some_keys; eauto|].
    cbn [Table.columns Table.title Table.schema Table.position].
    split; [apply setAt_length|].
    split; [eapply setAt_same; eauto|].
    split; [intros j Hj; now apply setAt_other|].
    repeat split.
    intros id Hne. rewrite Hs. now apply get_replace_other.
  - apply (alterColumn_missing e tableId columnName patch st table); auto.
    intros c Hc. apply String.eqb_neq.
    now apply (proj1 (findIndex_none _ _) Hidx).
Qed.

Lemma alterColumn_changes_first_match_witness :
  let patch :=
    ColumnPatch.mk None (Some "varchar") None None None None None None None
                   None in
  let r := Agent.alterColumn entropy0 "users" "email" patch
             (running usersPosts) in
  Agent.ok (fst r) = Some true
  /\ option_map (fun t => map (fun c => (Column.title c, Column.format c))
                              (Table.columns t))
                (Js.get "users" (Agent.schemaState (snd r)))
     = Some [("id", "uuid"); ("email", "varchar")].
Proof.
  intros patch r.
  destruct (Js.get "users" (Agent.schemaState (running usersPosts)))
    as [table|] eqn:Hget; [|vm_compute in Hget; discriminate].
  pose proof (alterColumn_changes_first_match entropy0 (running usersPosts)
                "users" "email" patch table eq_refl Hget) as H.
  cbv zeta in H. fold r in H.
  vm_compute in Hget. injection Hget as <-.
  cbn [Js.findIndex Table.columns Column.title String.eqb Ascii.eqb
       Bool.eqb option_map] in H.
  destruct H as (c & table' & _ & _ & _ & Hok & _).
  split; [exact Hok | reflexivity].
Defined.


(** ** Counters of a request *)

(** Every record added to the history has been counted as an operation. *)
Lemma execute_operationCount e call st :
  List.length (Agent.operationHistory (snd (Agent.execute e call st)))
  + Agent.operationCount st
  <= Agent.operationCount (snd (Agent.execute e call st))
     + List.length (Agent.operationHistory st)
  /\ Agent.operationCount st
     <= Agent.operationCount (snd (Agent.execute e call st)).
Proof.
  destruct call; cbn [Agent.execute];
    unfold Agent.listSchemas, Agent.listTables, Agent.getTableDetails,
      Agent.createTable, Agent.dropTable, Agent.renameTable, Agent.addColumn,
      Agent.dropColumn, Agent.alterColumn;
    (destruct (Agent.aborted st); [cbn; lia|]);
    cbn [Agent.countOperation Agent.schemaState];
    try (destruct (Js.get _ (Agent.schemaState st)) as [table|];
         [|cbn; lia]).
  - cbn. lia.
  - destruct (0 <? _)%nat; cbn; lia.
  - cbn. lia.
  - cbn. rewrite length_app. cbn. lia.
  - cbn. rewrite length_app. cbn. lia.
  - cbn. rewrite length_app. cbn. lia.
  - destruct (existsb _ _); cbn; rewrite ?length_app; cbn; lia.
  - cbn [Agent.assignColumns Table.columns].
    destruct (_ =? _)%nat; cbn; rewrite ?length_app; cbn; lia.
  - destruct (Js.findIndex _ _) as [i|]; [|cbn; lia].
    destruct (nth_error _ _) as [c|]; [|cbn; lia].
    cbn. rewrite ?length_app. cbn. lia.
Qed.

Lemma run_operationCount events st :
  Agent.operationCount st <= Agent.operationCount (snd (Agent.run events st))
  /\ List.length (Agent.operationHistory (snd (Agent.run events st)))
     + Agent.operationCount st
     <= Agent.operationCount (snd (Agent.run events st))
        + List.length (Agent.operationHistory st).
Proof.
  revert st.
  induction events as [|[e call|] events IH]; intros st; simpl; [lia| |].
  - pose proof (execute_operationCount e call st) as [H1 H2].
    destruct (Agent.execute e call st) as [r st1]. specialize (IH st1).
    destruct (Agent.run events st1). simpl in *. lia.
  - specialize (IH (Agent.abort st)).
    destruct (Agent.run events (Agent.abort st)). simpl in *. exact IH.
Qed.

(** X6.  [operationCount], which the progress events and the completion
    notification report, counts attempts: over a request it never
    decreases and it is at least the number of records of the history; an
    [addColumn] rejected for a duplicate title is counted although it adds
    no record. *)
Theorem operationCount_bounds_history (events : list Agent.Event)
    (st : Agent.State) :
  let final := snd (Agent.run events st) in
  Agent.operationCount st <= Agent.operationCount final
  /\ List.length (Agent.operationHistory final) + Agent.operationCount st
     <= Agent.operationCount final + List.length (Agent.operationHistory st)
  /\ (forall e tableId column table,
         Agent.aborted final = false ->
         Js.get tableId (Agent.schemaState final) = Some table ->
         (exists c, In c (Table.columns table)
                    /\ Column.title c = ColumnInput.title column) ->
         let rejected := snd (Agent.addColumn e tableId column final) in
         Agent.operationCount rejected = S (Agent.operationCount final)
         /\ Agent.operationHistory rejected = Agent.operationHistory final).
Proof.
  intros final. split; [|split].
  - apply run_operationCount.
  - apply run_operationCount.
  - intros e tableId column table Hab Hget (c & Hin & Heq) rejected.
    unfold rejected, Agent.addColumn. rewrite Hab.
    cbn [Agent.countOperation Agent.schemaState]. rewrite Hget.
    rewrite normaliseColumn_title.
    replace (existsb _ (Table.columns table)) with true; [now cbn|].
    symmetry. apply existsb_exists. exists c. split; auto.
    now apply String.eqb_eq.
Qed.

(** X7.  Over any sequence of tool invocations and aborts, the history
    grows by exactly one record per mutation that returns [ok: true]; the
    read-only tools, the cancelled and the failed invocations add none. *)
Theorem history_counts_successful_mutations (events : list Agent.Event)
    (st : Agent.State) :
  List.length (Agent.operationHistory (snd (Agent.run events st)))
  = List.length (Agent.operationHistory st) + successfulMutations events st
  /\ exists records,
       Agent.operationHistory (snd (Agent.run events st))
       = Agent.operationHistory st ++ records.
Proof.
  split; [apply run_history|].
  revert st. induction events as [|[e call|] events IH]; intros st.
  - exists []. simpl. now rewrite app_nil_r.
  - cbn [Agent.run Agent.step].
    assert (H1 : exists rs, Agent.operationHistory (snd (Agent.execute e call st))
                            = Agent.operationHistory st ++ rs).
    { destruct call; cbn [Agent.execute];
        unfold Agent.listSchemas, Agent.listTables, Agent.getTableDetails,
          Agent.createTable, Agent.dropTable, Agent.renameTable,
          Agent.addColumn, Agent.dropColumn, Agent.alterColumn;
        (destruct (Agent.aborted st);
         [exists []; cbn; now rewrite app_nil_r|]);
        cbn [Agent.countOperation Agent.schemaState];
        try (destruct (Js.get _ (Agent.schemaState st)) as [table|];
             [|exists []; cbn; now rewrite app_nil_r]).
      - exists []. cbn. now rewrite app_nil_r.
      - exists []. destruct (0 <? _)%nat; cbn; now rewrite app_nil_r.
      - exists []. cbn. now rewrite app_nil_r.
      - eexists. cbn. reflexivity.
      - eexists. cbn. reflexivity.
      - eexists. cbn. reflexivity.
      - destruct (existsb _ _);
          [exists []; cbn; now rewrite app_nil_r | eexists; cbn; reflexivity].
      - cbn [Agent.assignColumns Table.columns].
        destruct (_ =? _)%nat;
          [exists []; cbn; now rewrite app_nil_r | eexists; cbn; reflexivity].
      - destruct (Js.findIndex _ _) as [i|];
          [|exists []; cbn; now rewrite app_nil_r].
        destruct (nth_error _ _) as [c|];
          [|exists []; cbn; now rewrite app_nil_r].
        eexists. cbn. reflexivity. }
    destruct H1 as [rs1 H1].
    destruct (Agent.execute e call st) as [r st1]. cbn [snd] in H1.
    destruct (IH st1) as [rs2 H2].
    destruct (Agent.run events st1) as [rs st2]. cbn [snd] in *.
    exists (rs1 ++ rs2). now rewrite H2, H1, app_assoc.
  - cbn [Agent.run Agent.step]. destruct (IH (Agent.abort st)) as [rs H].
    destruct (Agent.run events (Agent.abort st)). cbn [snd] in *.
    exists rs. exact H.
Qed.

(** X8.  For a request that never calls [renameTable], the [before]
    values of the records it added, applied in reverse order, restore
    every entry of the schema the request started on. *)
Theorem undo_restores_schema_without_rename (events : list Agent.Event)
    (st : Agent.State) :
  renameFree events ->
  exists records,
    Agent.operationHistory (snd (Agent.run events st))
    = Agent.operationHistory st ++ records
    /\ List.length records = successfulMutations events st
    /\ forall id,
         Js.get id
           (undoAll records (Agent.schemaState (snd (Agent.run events st))))
         = Js.get id (Agent.schemaState st).
Proof.
  intros Hfree. destruct (run_undo events st Hfree) as (rs & H1 & H2 & H3).
  exists rs. repeat split; auto.
Qed.

Lemma undo_restores_schema_without_rename_witness :
  let events :=
    [ Agent.Invoke entropy0
        (Agent.AddColumn "users"
           (columnInput "name" (Some "text") None None None));
      Agent.Invoke entropy0 (Agent.DropTable "posts");
      Agent.Invoke entropy0 (Agent.DropColumn "users" "email") ] in
  exists records,
    Agent.operationHistory (snd (Agent.run events (running usersPosts)))
    = records
    /\ List.length records = 3
    /\ forall id,
         Js.get id
           (undoAll records
              (Agent.schemaState
                 (snd (Agent.run events (running usersPosts)))))
         = Js.get id usersPosts.
Proof.
  intros events.
  destruct (undo_restores_schema_without_rename events (running usersPosts))
    as (records & H1 & H2 & H3).
  { repeat constructor. }
  exists records. repeat split; auto.
Defined.

(** ** The read-only tools *)

Lemma incl_firstn_skipn {A : Type} n m (l : list A) :
  incl (firstn n (skipn m l)) l.
Proof.
  intros a Ha.
  assert (Hs : In a (skipn m l)).
  { rewrite <- (firstn_skipn n (skipn m l)). apply in_or_app. now left. }
  rewrite <- (firstn_skipn m l). apply in_or_app. now right.
Qed.



Lemma setAdd_nodup s set : NoDup set -> NoDup (Agent.setAdd s set).
Proof.
  intros Hnd. unfold Agent.setAdd.
  destruct (Js.arrayIncludes set s) eqn:E; auto.
  apply NoDup_app; auto.
  - repeat constructor. intros [].
  - intros x Hx [<-|[]]. apply arrayIncludes_In in Hx. congruence.
Qed.

Lemma setAdd_in s set x :
  In x (Agent.setAdd s set) <-> x = s \/ In x set.
Proof.
  unfold Agent.setAdd. destruct (Js.arrayIncludes set s) eqn:E.
  - apply arrayIncludes_In in E. split; [tauto|]. intros [->|H]; auto.
  - rewrite in_app_iff. simpl. intuition auto.
Qed.



(** ** When the exports return, and what they read *)



Lemma dependenciesOf_emitted key table :
  dependenciesOf key (emittedTable table) = dependenciesOf key table.
Proof.
  unfold dependenciesOf, emittedTable. cbn [Table.columns].
  now rewrite map_map.
Qed.

Lemma dependencies_fold_emitted (tables : TableState) acc :
  fold_left
    (fun deps (entry : string * Table.t) =>
       Js.set (fst entry) (dependenciesOf (fst entry) (snd entry)) deps)
    (emittedTables tables) acc
  = fold_left
      (fun deps (entry : string * Table.t) =>
         Js.set (fst entry) (dependenciesOf (fst entry) (snd entry)) deps)
      tables acc.
Proof.
  revert acc. induction tables as [|[k v] tables IH]; intros acc; simpl; auto.
  now rewrite dependenciesOf_emitted.
Qed.

Lemma get_emittedTables tables id :
  Js.get id (emittedTables tables)
  = option_map emittedTable (Js.get id tables).
Proof.
  induction tables as [|[k v] tables IH]; simpl; auto.
  destruct (String.eqb k id); auto.
Qed.

Lemma columnLine_emitted c isLast :
  Rule.columnLine (emittedColumn c) isLast = Rule.columnLine c isLast.
Proof.
  unfold Rule.columnLine, Rule.identifier, Rule.dataType,
    Rule.referencesClause, Rule.defaultNowClause, Rule.requiredClause,
    Rule.primaryKeyClause, Rule.dateFamily, Rule.fkSet, emittedColumn.
  cbn [Column.title Column.format Column.pk Column.fk Column.required].
  destruct (Column.fk c) as [[|x fk]|]; cbn [Js.truthy negb String.eqb];
    rewrite ?andb_false_r, ?andb_true_r; reflexivity.
Qed.

Lemma columnLines_emitted columns :
  Rule.columnLines (map emittedColumn columns) = Rule.columnLines columns.
Proof.
  induction columns as [|c columns IH]; [reflexivity|].
  destruct columns as [|c' columns].
  - apply columnLine_emitted.
  - change (Rule.columnLines (map emittedColumn (c :: c' :: columns)))
      with (Rule.columnLine (emittedColumn c) false
            ++ Rule.columnLines (map emittedColumn (c' :: columns)))%string.
    now rewrite IH, columnLine_emitted.
Qed.

Lemma statements_emitted tables order :
  Rule.statements (emittedTables tables) order = Rule.statements tables order.
Proof.
  induction order as [|id order IH]; [reflexivity|].
  rewrite !statements_cons, get_emittedTables, IH.
  destruct (Js.get id tables) as [table|]; cbn [option_map]; auto.
  cbn [emittedTable Table.is_view]. destruct (Table.is_view table); auto.
  unfold Rule.createTable. cbn [emittedTable Table.columns].
  now rewrite columnLines_emitted.
Qed.

Lemma exportedCode_statements fuel tables :
  ModalSQL.exportedCode fuel tables
  = option_map (Rule.statements tables) (dependencyOrder fuel tables).
Proof.
  unfold ModalSQL.exportedCode.
  destruct (dependencyOrder fuel tables) as [output|]; simpl; auto.
  now rewrite tableCode_statements.
Qed.

(** X12.  The SQL export reads of a table state only the keys, the view
    flags and, of each column, the title, the format, [pk], the foreign key
    and, for a column without foreign key, [required]: two states that
    agree on these generate the same text.  The [type], [default],
    [comment] and enum values of a column, the [required] flag of a
    foreign-key column, and the title, schema and position of a table leave
    no trace in the SQL. *)
Theorem exportedCode_reads_emitted_fields (fuel : nat)
    (tables tables' : TableState) :
  emittedTables tables = emittedTables tables' ->
  ModalSQL.exportedCode fuel tables = ModalSQL.exportedCode fuel tables'.
Proof.
  assert (H : forall t, ModalSQL.exportedCode fuel (emittedTables t)
                        = ModalSQL.exportedCode fuel t).
  { intros t.
    rewrite !exportedCode_statements. unfold dependencyOrder, dependencies.
    rewrite dependencies_fold_emitted.
    destruct (whileKeys fuel _ _ _) as [output|]; cbn [option_map]; auto.
    now rewrite statements_emitted. }
  intros E. now rewrite <- (H tables), <- (H tables'), E.
Qed.

Lemma exportedCode_reads_emitted_fields_witness :
  ModalSQL.exportedCode 2 usersPosts
  = ModalSQL.exportedCode 2 (emittedTables usersPosts).
Proof.
  apply (exportedCode_reads_emitted_fields 2 usersPosts
           (emittedTables usersPosts)).
  vm_compute. reflexivity.
Defined.

(** ** The legacy route *)

Lemma cloneTables_id tables : cloneTables (Some tables) = tables.
Proof.
  unfold cloneTables. rewrite <- (map_id tables) at 2. apply map_ext.
  intros [k v]. cbn. now rewrite structuredClone_id.
Qed.

(** One operation reports once, under its own action, and clears [ok] when
    it fails; what it does to the schema depends on the schema only. *)
Lemma applyOperation_report st operation :
  exists a,
    Legacy.operationsApplied (Legacy.applyOperation st operation)
    = Legacy.operationsApplied st ++ [a]
    /\ Legacy.action a = actionName operation
    /\ Legacy.ok (Legacy.applyOperation st operation)
       = Legacy.ok st && isSuccess a
    /\ forall ok applied,
         Legacy.schemaState
           (Legacy.applyOperation
              (Legacy.mkState (Legacy.schemaState st) ok applied) operation)
         = Legacy.schemaState (Legacy.applyOperation st operation).
Proof.
  destruct operation; unfold Legacy.applyOperation;
    cbn [Legacy.schemaState actionName];
    try (destruct (Js.get _ (Legacy.schemaState st)) as [table|]);
    try (destruct (_ =? _)%nat);
    try (destruct (Js.findIndex _ _) as [i|]);
    try (destruct (nth_error _ _) as [c|]);
    (eexists; split; [reflexivity|]; split; [reflexivity|];
     split; [cbn; now rewrite ?andb_true_r, ?andb_false_r | reflexivity]).
Qed.

Lemma fold_applyOperation_report operations st :
  exists news,
    Legacy.operationsApplied (fold_left Legacy.applyOperation operations st)
    = Legacy.operationsApplied st ++ news
    /\ map Legacy.action news = map actionName operations
    /\ Legacy.ok (fold_left Legacy.applyOperation operations st)
       = Legacy.ok st && forallb isSuccess news.
Proof.
  revert st. induction operations as [|op operations IH]; intros st.
  - exists []. simpl. now rewrite app_nil_r, andb_true_r.
  - destruct (applyOperation_report st op) as (a & Ha & Hact & Hok & _).
    destruct (IH (Legacy.applyOperation st op)) as (news & Hn & Hmap & Hoks).
    exists (a :: news). cbn [fold_left map forallb].
    rewrite Hn, Ha, Hoks, Hok, Hact, Hmap, <- app_assoc, andb_assoc.
    auto.
Qed.

Lemma fold_applyOperation_schema operations st ok applied :
  Legacy.schemaState
    (fold_left Legacy.applyOperation operations
       (Legacy.mkState (Legacy.schemaState st) ok applied))
  = Legacy.schemaState (fold_left Legacy.applyOperation operations st).
Proof.
  revert st ok applied.
  induction operations as [|op operations IH]; intros st ok applied;
    [reflexivity|].
  cbn [fold_left].
  destruct (applyOperation_report st op) as (_ & _ & _ & _ & Hs).
  specialize (Hs ok applied).
  set (st1 := Legacy.applyOperation (Legacy.mkState _ ok applied) op) in *.
  set (st2 := Legacy.applyOperation st op) in *.
  rewrite <- (IH st1 (Legacy.ok st1) (Legacy.operationsApplied st1)).
  rewrite <- (IH st2 (Legacy.ok st1) (Legacy.operationsApplied st1)).
  rewrite Hs. reflexivity.
Qed.

(** X13.  [applySchemaOperations] reports every operation, in order and
    under its own action; [ok] is true exactly when every report is a
    success; the tables it returns are the schema it leaves.  A failed
    operation does not stop the ones that follow and nothing is rolled
    back: applying two lists one after the other leaves the schema that
    applying their concatenation leaves. *)
Theorem applySchemaOperations_reports_every_operation
    (tables : TableState) (operations operations' : list Legacy.Operation) :
  let out := fst (Legacy.applySchemaOperations tables operations) in
  map Legacy.action (Legacy.outApplied out) = map actionName operations
  /\ Legacy.outOk out = forallb isSuccess (Legacy.outApplied out)
  /\ Legacy.outTables out
     = snd (Legacy.applySchemaOperations tables operations)
  /\ snd (Legacy.applySchemaOperations tables (operations ++ operations'))
     = snd (Legacy.applySchemaOperations
              (snd (Legacy.applySchemaOperations tables operations))
              operations').
Proof.
  unfold Legacy.applySchemaOperations. cbn [fst snd Legacy.outApplied
    Legacy.outOk Legacy.outTables].
  destruct (fold_applyOperation_report operations
              (Legacy.mkState tables true [])) as (news & Hn & Hmap & Hok).
  cbn [Legacy.operationsApplied Legacy.ok app andb] in Hn, Hok.
  rewrite Hn, Hok. repeat split; auto.
  - apply cloneTables_id.
  - rewrite fold_left_app. symmetry. apply fold_applyOperation_schema.
Qed.



Lemma fold_set_get {V : Type} (l acc : Js.obj V) k :
  NoDup (Js.keys l) ->
  Js.get k
    (fold_left (fun o (entry : string * V) => Js.set (fst entry) (snd entry) o)
               l acc)
  = match Js.get k l with
    | Some v => Some v
    | None => Js.get k acc
    end.
Proof.
  revert acc. induction l as [|[k0 v0] l IH]; intros acc Hnd; simpl; auto.
  simpl in Hnd. inversion Hnd as [|? ? Hnin Hnd']; subst.
  rewrite (IH _ Hnd'). cbn [fst snd].
  destruct (String.eqb_spec k0 k) as [->|Hne].
  - apply get_none_keys in Hnin. rewrite Hnin. apply get_set_same.
  - rewrite get_set_other by congruence. reflexivity.
Qed.

Lemma spread_get {V : Type} (a b : Js.obj V) k :
  NoDup (Js.keys a) -> NoDup (Js.keys b) ->
  Js.get k (Sidebar.spread a b)
  = match Js.get k b with
    | Some v => Some v
    | None => Js.get k a
    end.
Proof.
  intros Ha Hb. unfold Sidebar.spread.
  rewrite (fold_set_get b _ k Hb), (fold_set_get a _ k Ha).
  destruct (Js.get k b); auto. now destruct (Js.get k a).
Qed.

Lemma fold_set_skip_get (selected : string) (tables acc : TableState) k :
  NoDup (Js.keys tables) ->
  Js.get k
    (fold_left
       (fun (next : TableState) (entry : string * Table.t) =>
          if String.eqb (fst entry) selected then next
          else Js.set (fst entry) (snd entry) next)
       tables acc)
  = if String.eqb k selected then Js.get k acc
    else match Js.get k tables with
         | Some v => Some v
         | None => Js.get k acc
         end.
Proof.
  revert acc. induction tables as [|[k0 v0] tables IH]; intros acc Hnd.
  - simpl. now destruct (String.eqb k selected).
  - simpl in Hnd. inversion Hnd as [|? ? Hnin Hnd']; subst.
    cbn [fold_left fst snd Js.get]. rewrite (IH _ Hnd').
    destruct (String.eqb_spec k selected) as [Heq|Hsel].
    + destruct (String.eqb_spec k0 selected) as [Hk0|Hk0]; auto.
      rewrite get_set_other by congruence. reflexivity.
    + destruct (String.eqb_spec k0 k) as [Heq|Hne].
      * rewrite Heq in Hnin. apply get_none_keys in Hnin. rewrite Hnin.
        destruct (String.eqb_spec k0 selected); [congruence|].
        rewrite Heq. apply get_set_same.
      * destruct (Js.get k tables); auto.
        destruct (String.eqb k0 selected); auto.
        rewrite get_set_other by congruence. reflexivity.
Qed.

(** X15.  Applying the SQL of one selected table (the parse gave no error
    and exactly one table, under [newKey]): the store receives the parsed
    table under [newKey] with the position the selected table had on the
    canvas (its own when the selected table is gone), the selected entry is
    removed when the parsed key differs, every other table is kept as it
    was, the parsed enum types win over the stored ones of the same name,
    and [newKey] becomes the selected table. *)
Theorem handleApply_single_table (selectedTable newKey : string)
    (newTable : Table.t) (tables : TableState) (enumTypes parsedEnums : EnumMap) :
  NoDup (Js.keys tables) ->
  NoDup (Js.keys enumTypes) ->
  NoDup (Js.keys parsedEnums) ->
  selectedTable <> "__all__" ->
  exists next merged,
    Sidebar.handleApply selectedTable tables enumTypes
      (Sidebar.mkResult [(newKey, newTable)] parsedEnums None)
    = Sidebar.Applied next merged newKey
    /\ Js.get newKey next
       = Some (Sidebar.withPosition newTable
                 match Js.get selectedTable tables with
                 | Some table => Table.position table
                 | None => Table.position newTable
                 end)
    /\ (newKey <> selectedTable -> Js.get selectedTable next = None)
    /\ (forall id, id <> selectedTable -> id <> newKey ->
          Js.get id next = Js.get id tables)
    /\ (forall name,
          Js.get name merged
          = match Js.get name parsedEnums with
            | Some values => Some values
            | None => Js.get name enumTypes
            end).
Proof.
  intros Hnd Hen Hpn Hall.
  unfold Sidebar.handleApply.
  cbn [Sidebar.error Sidebar.tables Sidebar.enumTypes Js.truthy Js.keys map
       List.length Nat.ltb Nat.leb negb andb].
  destruct (String.eqb_spec selectedTable "__all__") as [|_]; [contradiction|].
  eexists _, _. split; [reflexivity|].
  split; [apply get_set_same|].
  split; [|split].
  - intros Hne. rewrite get_set_other by congruence.
    rewrite (fold_set_skip_get selectedTable tables [] selectedTable Hnd).
    now rewrite String.eqb_refl.
  - intros id Hsel Hnew. rewrite get_set_other by congruence.
    rewrite (fold_set_skip_get selectedTable tables [] id Hnd).
    destruct (String.eqb_spec id selectedTable); [contradiction|].
    now destruct (Js.get id tables).
  - intros name. now apply spread_get.
Qed.

Lemma handleApply_single_table_witness :
  exists next merged,
    Sidebar.handleApply "users" usersPosts [] 
      (Sidebar.mkResult
         [("accounts",
           Table.mk "accounts" (Some "public") false [] (Position.mk 0 0))]
         [] None)
    = Sidebar.Applied next merged "accounts"
    /\ Js.get "users" next = None
    /\ Js.get "posts" next = Js.get "posts" usersPosts.
Proof.
  destruct (handleApply_single_table "users" "accounts"
              (Table.mk "accounts" (Some "public") false [] (Position.mk 0 0))
              usersPosts [] [])
    as (next & merged & Heq & _ & Hsel & Hother & _).
  - vm_compute. repeat constructor; simpl; intuition discriminate.
  - constructor.
  - constructor.
  - discriminate.
  - exists next, merged. split; [exact Heq|]. split.
    + apply Hsel. discriminate.
    + apply Hother; discriminate.
Defined.

(** ** The response stream of the agent route *)

Lemma batches_app a b : batches (a ++ b) = batches a ++ batches b.
Proof. apply flat_map_app. Qed.

Lemma sorted_snoc (l : list nat) n :
  StronglySorted lt l -> Forall (fun x => x < n) l ->
  StronglySorted lt (l ++ [n]).
Proof.
  induction 1 as [|x l Hs IH Hx]; intros Hall; simpl.
  - repeat constructor.
  - inversion Hall; subst. constructor; auto.
    apply Forall_app. split; auto.
Qed.

Lemma sorted_app_l (l l' : list nat) :
  StronglySorted lt (l ++ l') -> StronglySorted lt l.
Proof.
  induction l as [|x l IH]; simpl; intros H; [constructor|].
  inversion H; subst. constructor; auto.
  match goal with Hf : Forall _ (l ++ l') |- _ =>
    apply Forall_app in Hf; tauto end.
Qed.

(** A tool that does not count an operation leaves the schema. *)
Lemma execute_count_schema e call st :
  Agent.operationCount (snd (Agent.execute e call st))
  = Agent.operationCount st ->
  Agent.schemaState (snd (Agent.execute e call st)) = Agent.schemaState st.
Proof.
  destruct call; cbn [Agent.execute];
    unfold Agent.listSchemas, Agent.listTables, Agent.getTableDetails,
      Agent.createTable, Agent.dropTable, Agent.renameTable, Agent.addColumn,
      Agent.dropColumn, Agent.alterColumn;
    (destruct (Agent.aborted st); [cbn; auto|]);
    cbn [Agent.countOperation Agent.schemaState];
    try (destruct (Js.get _ (Agent.schemaState st)) as [table|];
         [|cbn; auto; lia]);
    cbv zeta;
    repeat match goal with
           | |- context [if ?b then _ else _] => destruct b
           | |- context [match ?x with Some _ => _ | None => _ end] =>
               destruct x
           end;
    cbn; auto; intros; try lia.
  all: match goal with
       | H : context [if ?b then _ else _] |- _ => destruct b
       end; cbn in *; lia.
Qed.

Lemma step_count_schema st ev :
  Agent.operationCount st <= Agent.operationCount (snd (Agent.step st ev))
  /\ (Agent.operationCount (snd (Agent.step st ev)) = Agent.operationCount st
      -> Agent.schemaState (snd (Agent.step st ev)) = Agent.schemaState st).
Proof.
  destruct ev as [e call|]; cbn [Agent.step].
  - pose proof (execute_operationCount e call st) as [_ Hle].
    pose proof (execute_count_schema e call st) as Hs.
    destruct (Agent.execute e call st) as [r st']. cbn [snd] in *. auto.
  - cbn. auto.
Qed.

Lemma streaming_onEvent w ev : streaming w -> streaming (Stream.onEvent w ev).
Proof.
  intros (Hle & Hall & Hsorted & Hlast & Hnone).
  destruct ev as [ev|]; cbn [Stream.onEvent].
  - destruct (step_count_schema (Stream.request w) ev) as [Hmono Hsame].
    unfold streaming.
    cbn [Stream.request Stream.lastStreamedOperationCount Stream.written].
    repeat split; auto; [lia|].
    intros Hpos. destruct (Hlast Hpos) as (updates & tables & Hbs & Ht).
    exists updates, tables. split; auto.
    intros Heq. rewrite Hsame by lia. apply Ht. lia.
  - unfold Stream.interval.
    destruct (Nat.ltb_spec (Stream.lastStreamedOperationCount w)
                (Agent.operationCount (Stream.request w))) as [Hlt|Hge].
    + unfold streaming.
      cbn [Stream.request Stream.lastStreamedOperationCount Stream.written].
      rewrite batches_app. cbn [batches flat_map app].
      rewrite cloneTables_id. repeat split.
      * lia.
      * apply Forall_app. split.
        -- eapply Forall_impl; [|exact Hall]. cbn. intros b [H1 H2].
           split; [lia|auto].
        -- repeat constructor.
      * rewrite map_app. apply sorted_snoc; auto.
        apply Forall_map. eapply Forall_impl; [|exact Hall].
        cbn. intros b [H1 _]. lia.
      * intros _. eexists _, _. split; [reflexivity|auto].
      * intros H0. lia.
    + repeat split; auto.
Qed.

Lemma streaming_fold events w :
  streaming w -> streaming (fold_left Stream.onEvent events w).
Proof.
  revert w. induction events as [|ev events IH]; intros w H; simpl; auto.
  apply IH. now apply streaming_onEvent.
Qed.

Lemma streaming_start schema :
  streaming
    (Stream.mkWriter (Agent.start schema) 0
       [Stream.Notification "Processing your request..." "info"]).
Proof.
  unfold streaming. cbn. repeat split; auto; try constructor; lia.
Qed.

Lemma finish_request w : Stream.request (Stream.finish w) = Stream.request w.
Proof.
  unfold Stream.finish, Stream.write.
  repeat match goal with
         | |- context [if ?b then _ else _] => destruct b
         end; reflexivity.
Qed.


(** ** The chat history *)

Lemma groupThreads_fold {Thread : Type} (updatedAt : Thread -> Z) (now : Z)
    (threads : list Thread) (acc : ChatHistory.GroupedThreads Thread) :
  fold_left
    (fun grouped thread =>
       if (updatedAt thread >? now - 24 * 60 * 60 * 1000)%Z
       then ChatHistory.mkGrouped
              (ChatHistory.today grouped ++ [thread])
              (ChatHistory.yesterday grouped) (ChatHistory.thisWeek grouped)
              (ChatHistory.thisMonth grouped) (ChatHistory.older grouped)
       else if (updatedAt thread >? now - 2 * 24 * 60 * 60 * 1000)%Z
       then ChatHistory.mkGrouped
              (ChatHistory.today grouped)
              (ChatHistory.yesterday grouped ++ [thread])
              (ChatHistory.thisWeek grouped) (ChatHistory.thisMonth grouped)
              (ChatHistory.older grouped)
       else if (updatedAt thread >? now - 7 * 24 * 60 * 60 * 1000)%Z
       then ChatHistory.mkGrouped
              (ChatHistory.today grouped) (ChatHistory.yesterday grouped)
              (ChatHistory.thisWeek grouped ++ [thread])
              (ChatHistory.thisMonth grouped) (ChatHistory.older grouped)
       else if (updatedAt thread >? now - 30 * 24 * 60 * 60 * 1000)%Z
       then ChatHistory.mkGrouped
              (ChatHistory.today grouped) (ChatHistory.yesterday grouped)
              (ChatHistory.thisWeek grouped)
              (ChatHistory.thisMonth grouped ++ [thread])
              (ChatHistory.older grouped)
       else ChatHistory.mkGrouped
              (ChatHistory.today grouped) (ChatHistory.yesterday grouped)
              (ChatHistory.thisWeek grouped) (ChatHistory.thisMonth grouped)
              (ChatHistory.older grouped ++ [thread]))
    threads acc
  = ChatHistory.mkGrouped
      (ChatHistory.today acc
       ++ agedBetween updatedAt now None (Some 1%Z) threads)
      (ChatHistory.yesterday acc
       ++ agedBetween updatedAt now (Some 1%Z) (Some 2%Z) threads)
      (ChatHistory.thisWeek acc
       ++ agedBetween updatedAt now (Some 2%Z) (Some 7%Z) threads)
      (ChatHistory.thisMonth acc
       ++ agedBetween updatedAt now (Some 7%Z) (Some 30%Z) threads)
      (ChatHistory.older acc
       ++ agedBetween updatedAt now (Some 30%Z) None threads).
Proof.
  revert acc. induction threads as [|t threads IH]; intros acc.
  - cbn. rewrite !app_nil_r. now destruct acc.
  - cbn [fold_left]. rewrite IH. unfold agedBetween, day.
    cbn [filter ChatHistory.today ChatHistory.yesterday ChatHistory.thisWeek
         ChatHistory.thisMonth ChatHistory.older andb].
    rewrite !Z.gtb_ltb.
    repeat match goal with
           | |- context [(?a <? ?b)%Z] =>
               destruct (Z.ltb_spec a b); try lia
           | |- context [(?a <=? ?b)%Z] =>
               destruct (Z.leb_spec a b); try lia
           end;
      cbn [ChatHistory.today ChatHistory.yesterday ChatHistory.thisWeek
           ChatHistory.thisMonth ChatHistory.older andb];
      rewrite <- ?app_assoc; reflexivity.
Qed.

Lemma partition_insert {A : Type} (a : A) (l1 l2 l : list A) :
  Permutation (l1 ++ l2) l -> Permutation (l1 ++ a :: l2) (a :: l).
Proof.
  intros H. apply Permutation_sym, Permutation_cons_app.
  now apply Permutation_sym.
Qed.

(** X17.  [groupThreadsByTime] sorts the threads by the age of their last
    update, counted from the moment of the call in periods of 24 hours and
    not in calendar days: less than one day (a thread dated in the future
    included) is [today], from one day to less than two [yesterday], from
    two to less than seven [thisWeek], from seven to less than thirty
    [thisMonth], thirty or more [older]; each group keeps the order of the
    list, and the five groups together hold every thread exactly once. *)
Theorem groupThreadsByTime_partitions {Thread : Type}
    (updatedAt : Thread -> Z) (now : Z) (threads : list Thread) :
  let grouped := ChatHistory.groupThreadsByTime updatedAt now threads in
  ChatHistory.today grouped
  = agedBetween updatedAt now None (Some 1%Z) threads
  /\ ChatHistory.yesterday grouped
     = agedBetween updatedAt now (Some 1%Z) (Some 2%Z) threads
  /\ ChatHistory.thisWeek grouped
     = agedBetween updatedAt now (Some 2%Z) (Some 7%Z) threads
  /\ ChatHistory.thisMonth grouped
     = agedBetween updatedAt now (Some 7%Z) (Some 30%Z) threads
  /\ ChatHistory.older grouped
     = agedBetween updatedAt now (Some 30%Z) None threads
  /\ Permutation
       (ChatHistory.today grouped ++ ChatHistory.yesterday grouped
        ++ ChatHistory.thisWeek grouped ++ ChatHistory.thisMonth grouped
        ++ ChatHistory.older grouped)
       threads.
Proof.
  intros grouped. subst grouped. unfold ChatHistory.groupThreadsByTime.
  cbv zeta. rewrite groupThreads_fold.
  cbn [ChatHistory.today ChatHistory.yesterday ChatHistory.thisWeek
       ChatHistory.thisMonth ChatHistory.older app].
  repeat (split; [reflexivity|]).
  unfold agedBetween, day.
  induction threads as [|t threads IH]; [constructor|].
  cbn [filter andb].
  repeat match goal with
         | |- context [(?a <? ?b)%Z] =>
             destruct (Z.ltb_spec a b); try lia
         | |- context [(?a <=? ?b)%Z] =>
             destruct (Z.leb_spec a b); try lia
         end;
    cbn [andb app].
  - now constructor.
  - now apply partition_insert.
  - rewrite app_assoc. apply partition_insert. now rewrite <- app_assoc.
  - rewrite 2!app_assoc. apply partition_insert. now rewrite <- 2!app_assoc.
  - rewrite 3!app_assoc. apply partition_insert. now rewrite <- 3!app_assoc.
Qed.

(** ** The search bar *)

Lemma filter_firstn_filter {A : Type} (p : A -> bool) n (l : list A) :
  filter p (firstn n (filter p l)) = firstn n (filter p l).
Proof.
  apply forallb_filter_id. apply forallb_forall. intros x Hx.
  assert (Hin : In x (filter p l)).
  { rewrite <- (firstn_skipn n (filter p l)). apply in_or_app. now left. }
  now apply filter_In in Hin.
Qed.

Lemma nodup_firstn {A : Type} n (l : list A) : NoDup l -> NoDup (firstn n l).
Proof.
  intros H. rewrite <- (firstn_skipn n l) in H.
  now apply NoDup_app_remove_r in H.
Qed.

(** X18.  The recent searches are a most-recent-first list: after saving a
    query it is the first entry and occurs once more nowhere, the list has
    at most ten entries, the other entries are earlier ones in their
    earlier order (a list without repetition stays so), and saving the
    same query again changes nothing. *)
Theorem saveRecentSearch_most_recent_first (query : string)
    (prev : list string) :
  let updated := SearchBar.saveRecentSearch query prev in
  (exists others,
      updated = query :: others
      /\ ~ In query others
      /\ others
         = firstn 9 (filter (fun s => negb (String.eqb s query)) prev))
  /\ List.length updated <= 10
  /\ (NoDup prev -> NoDup updated)
  /\ SearchBar.saveRecentSearch query updated = updated.
Proof.
  intros updated. subst updated. unfold SearchBar.saveRecentSearch.
  cbv zeta. set (keep := fun s => negb (String.eqb s query)).
  rewrite !(firstn_cons 9).
  assert (Hnot : forall n l, ~ In query (firstn n (filter keep l))).
  { intros n l Hin.
    assert (Hin' : In query (filter keep l)).
    { rewrite <- (firstn_skipn n (filter keep l)). apply in_or_app.
      now left. }
    apply filter_In in Hin'. destruct Hin' as [_ Hk]. unfold keep in Hk.
    now rewrite String.eqb_refl in Hk. }
  split; [|split; [|split]].
  - eexists. split; [reflexivity|]. split; [apply Hnot|reflexivity].
  - cbn [List.length]. pose proof (firstn_le_length 9 (filter keep prev)).
    lia.
  - intros Hnd. constructor; [apply Hnot|].
    apply nodup_firstn. now apply NoDup_filter.
  - cbn [filter]. unfold keep at 1. rewrite String.eqb_refl. cbn [negb].
    rewrite filter_firstn_filter. f_equal.
    rewrite firstn_firstn. reflexivity.
Qed.
